(** * OVSDBCluster reconciliation: a shallow embedding of
    [controllers/ovsdbcluster_controller.go] and the properties of one
    reconcile cycle.

    The controller talks to an API server through [r.Client]; the answers of
    the API server are the inputs of a cycle and the calls the cycle makes on
    members (OVSDBServer) and instances (Pod) are its trace.  Go's [int] is
    64 bits wide: every counter below is bounded by the length of a listed
    slice, so the embedding uses [Z] without wrap-around. *)

From Stdlib Require Import ZArith QArith Qround Lia.
From Stdlib Require OrderedTypeEx.
From stdpp Require Import base strings pretty gmap list sorting.

Local Open Scope Z_scope.

(** ** Errors and results *)

(** [ClientError] is an error answered by the API server, [Errorf] is
    [fmt.Errorf("<msg>: %w", cause)], and [WrapErrorForObject] stands for the
    helper of the same name of the controllers package (its text is not needed:
    only which error it wraps). *)
Inductive error : Type :=
  | ClientError (msg : string)
  | Errorf (msg : string) (cause : error)
  | WrapErrorForObject (msg : string) (obj : string) (cause : error).

Inductive result (A : Type) : Type :=
  | Ok (a : A)
  | Err (e : error).
Arguments Ok {A} a.
Arguments Err {A} e.

(** [controllerutil.OperationResult]. *)
Inductive OperationResult : Type :=
  | OperationResultNone
  | OperationResultCreated
  | OperationResultUpdated
  | OperationResultUpdatedStatus
  | OperationResultUpdatedStatusOnly.

Global Instance OperationResult_eq_dec : EqDecision OperationResult.
Proof. solve_decision. Defined.

(** ** Data model *)

(** The API types of the package [api/v1alpha1], with the fields the
    controller reads or writes.  Each Go struct is a record in a module of its
    own, so that fields keep their Go names ([Cluster.Status],
    [ClusterStatus.ClusterID], ...). *)

(** Reason codes of the Failed condition. *)
Inductive FailedReason : Type :=
  | OVSDBClusterBootstrap
  | OVSDBClusterInconsistent.

Global Instance FailedReason_eq_dec : EqDecision FailedReason.
Proof. solve_decision. Defined.

(** Modelled from the spec: the condition list of the cluster status, whose
    declaration and bookkeeping helpers ([util.SetAvailable], [util.SetFailed],
    ...) are outside the controller file.  The spec names two conditions: an
    [available] condition and a [failed] condition with a reason code and a
    message. *)
Module ClusterConditions.
Record t : Type := mk {
  Available : bool;
  Failed : option (FailedReason * string)
}.
End ClusterConditions.

Module ClusterSpec.
Record t : Type := mk {
  Replicas : Z;
  DBType : string;
  ServerStorageSize : string;
  ServerStorageClass : option string
}.
End ClusterSpec.

Module ClusterStatus.
Record t : Type := mk {
  ClusterID : option string;
  AvailableServers : Z;
  ClusterSize : Z;
  ClusterQuorum : Z;
  Conditions : ClusterConditions.t
}.
End ClusterStatus.

Module Cluster.
Record t : Type := mk {
  Name : string;
  Namespace : string;
  Spec : ClusterSpec.t;
  Status : ClusterStatus.t
}.
End Cluster.

Module ServerSpec.
Record t : Type := mk {
  DBType : string;
  ClusterID : option string;
  ClusterName : string;
  InitPeers : list string;
  StorageSize : string;
  StorageClass : option string
}.
End ServerSpec.

(** Modelled from the spec: the status of a member as its bootstrap agent
    writes it ([available] and [failed] are conditions read through
    [util.IsAvailable] and [util.IsFailed]). *)
Module ServerStatus.
Record t : Type := mk {
  Available : bool;
  Failed : bool;
  ClusterID : option string;
  RaftAddress : option string
}.
End ServerStatus.

Module Server.
Record t : Type := mk {
  Name : string;
  Namespace : string;
  Labels : gmap string string;
  Spec : ServerSpec.t;
  Status : ServerStatus.t
}.
End Server.

(** Modelled from the spec: an instance has a name (its member's name), a
    namespace and an observed readiness. *)
Module Pod.
Record t : Type := mk {
  Name : string;
  Namespace : string;
  Ready : bool
}.
End Pod.

Global Instance ClusterConditions_eq_dec : EqDecision ClusterConditions.t.
Proof. solve_decision. Defined.

Global Instance ClusterStatus_eq_dec : EqDecision ClusterStatus.t.
Proof. solve_decision. Defined.

Definition OVSDBClusterLabel : string := "ovsdb-cluster".
Definition OVSDBServerLabel : string := "ovsdb-server".

(** In-place writes of the Go code, as functional updates. *)
Definition withStatus (cluster : Cluster.t) (st : ClusterStatus.t) : Cluster.t :=
  Cluster.mk (Cluster.Name cluster) (Cluster.Namespace cluster)
             (Cluster.Spec cluster) st.

Definition withConditions (cluster : Cluster.t) (c : ClusterConditions.t) : Cluster.t :=
  let st := Cluster.Status cluster in
  withStatus cluster
    (ClusterStatus.mk (ClusterStatus.ClusterID st) (ClusterStatus.AvailableServers st)
                      (ClusterStatus.ClusterSize st) (ClusterStatus.ClusterQuorum st) c).

Definition withClusterID (cluster : Cluster.t) (id : option string) : Cluster.t :=
  let st := Cluster.Status cluster in
  withStatus cluster
    (ClusterStatus.mk id (ClusterStatus.AvailableServers st)
                      (ClusterStatus.ClusterSize st) (ClusterStatus.ClusterQuorum st)
                      (ClusterStatus.Conditions st)).

Definition withCounts (cluster : Cluster.t) (nAvailable clusterSize clusterQuorum : Z)
  : Cluster.t :=
  let st := Cluster.Status cluster in
  withStatus cluster
    (ClusterStatus.mk (ClusterStatus.ClusterID st) nAvailable clusterSize clusterQuorum
                      (ClusterStatus.Conditions st)).

(** ** The [util] package, as far as the controller uses it *)

Module util.

Definition conditions (cluster : Cluster.t) : ClusterConditions.t :=
  ClusterStatus.Conditions (Cluster.Status cluster).

(** Modelled from the spec: [util.SetAvailable], missing with the rest of the
    [util] package, makes the Available condition of the cluster hold. *)
Definition SetAvailable (cluster : Cluster.t) : Cluster.t :=
  withConditions cluster
    (ClusterConditions.mk true (ClusterConditions.Failed (conditions cluster))).

(** Modelled from the spec: [util.UnsetAvailable] makes the cluster
    Unavailable. *)
Definition UnsetAvailable (cluster : Cluster.t) : Cluster.t :=
  withConditions cluster
    (ClusterConditions.mk false (ClusterConditions.Failed (conditions cluster))).

(** Modelled from the spec: [util.SetFailed] records one failure, with its
    reason code and message, in place of whatever was recorded (only one
    failure reason is recorded at a time: the last writer wins; the source
    notes at its second call that it overwrites a ClusterBootstrap
    failure). *)
Definition SetFailed (cluster : Cluster.t) (reason : FailedReason) (msg : string)
  : Cluster.t :=
  withConditions cluster
    (ClusterConditions.mk (ClusterConditions.Available (conditions cluster))
                          (Some (reason, msg))).

(** Modelled from the spec: [util.UnsetFailed] clears the Failed condition. *)
Definition UnsetFailed (cluster : Cluster.t) : Cluster.t :=
  withConditions cluster
    (ClusterConditions.mk (ClusterConditions.Available (conditions cluster)) None).

(** Modelled from the spec: [util.IsAvailable] reads the Available condition
    of a member. *)
Definition IsAvailable (server : Server.t) : bool :=
  ServerStatus.Available (Server.Status server).

(** Modelled from the spec: [util.IsFailed] reads the Failed condition of a
    member. *)
Definition IsFailed (server : Server.t) : bool :=
  ServerStatus.Failed (Server.Status server).

(** Modelled from the spec: [util.IsPodReady] reads the observed readiness of
    an instance. *)
Definition IsPodReady (pod : Pod.t) : bool := Pod.Ready pod.

(** [InitLabelMap] allocates the map when it is nil; a nil map is the empty
    map here. *)
Definition InitLabelMap (labels : gmap string string) : gmap string string := labels.

End util.

(** ** The API server, as one cycle sees it *)

Inductive getResult : Type :=
  | GetFound (cluster : Cluster.t)
  | GetNotFound
  | GetFailed (e : error).

(** The answers a cycle receives.  [CreateOrUpdate] answers the scale-up
    iteration with loop variable [i]; [Delete] and [CreateOrDelete] answer the
    iteration at index [i] of the pod loops.  [CreateOrDelete] is a helper of
    the controllers package, taken here by its answer. *)
Record Client : Type := mkClient {
  Get : getResult;
  ListServers : result (list Server.t);
  ListPods : result (list Pod.t);
  StatusUpdate : option error;
  CreateOrUpdate : Z → result OperationResult;
  Delete : nat → option error;
  CreateOrDelete : nat → result OperationResult
}.

(** The calls a cycle makes that take a cluster, member or instance object. *)
Inductive action : Type :=
  | ActStatusUpdate (cluster : Cluster.t)
  | ActNeedsUpdate (server : Server.t)
  | ActCreateOrUpdate (server : Server.t)
  | ActDelete (pod : Pod.t)
  | ActCreateOrDelete (pod : Pod.t) (existing : bool) (answer : result OperationResult).

Record outcome : Type := mkOutcome {
  outCluster : option Cluster.t;
  outActions : list action;
  outErr : option error
}.

(** ** Observation: [getServers], [getServerPods], [findServer], [findPod] *)

(** [servers[i].Name < servers[j].Name] is Go's bytewise order on strings.
    Object names are unique within a namespace, so the sorted slice does not
    depend on the sorting algorithm. *)
Definition serverNameLe (a b : Server.t) : Prop :=
  String.leb (Server.Name a) (Server.Name b) = true.

Definition podNameLe (a b : Pod.t) : Prop :=
  String.leb (Pod.Name a) (Pod.Name b) = true.

Global Instance serverNameLe_dec : RelDecision serverNameLe.
Proof. intros a b. unfold serverNameLe. apply _. Defined.

Global Instance podNameLe_dec : RelDecision podNameLe.
Proof. intros a b. unfold podNameLe. apply _. Defined.

Definition getServers (r : Client) (cluster : Cluster.t) : result (list Server.t) :=
  match ListServers r with
  | Err err =>
      Err (Errorf ("Error listing servers for cluster " +:+ Cluster.Name cluster) err)
  | Ok items => Ok (merge_sort serverNameLe items)
  end.

Definition getServerPods (r : Client) (cluster : Cluster.t) : result (list Pod.t) :=
  match ListPods r with
  | Err err =>
      Err (Errorf ("Error listing server pods for cluster " +:+ Cluster.Name cluster) err)
  | Ok items => Ok (merge_sort podNameLe items)
  end.

Fixpoint findServer (servers : list Server.t) (name : string) : option Server.t :=
  match servers with
  | [] => None
  | server :: rest =>
      if bool_decide (Server.Name server = name) then Some server
      else findServer rest name
  end.

Fixpoint findPod (serverPods : list Pod.t) (name : string) : option Pod.t :=
  match serverPods with
  | [] => None
  | pod :: rest =>
      if bool_decide (Pod.Name pod = name) then Some pod
      else findPod rest name
  end.

(** ** Naming new members: [nextServerName] *)

(** [fmt.Sprintf("%s-%d", cluster.Name, i)]. *)
Definition serverNameAt (cluster : Cluster.t) (i : nat) : string :=
  Cluster.Name cluster +:+ "-" +:+ pretty i.

(** The loop [for i := 0; ; i++] of [nextServerName] has no bound of its own;
    [fuel] bounds the number of names probed, and [None] means that the probe
    has not returned within it. *)
Fixpoint nextServerName_probe (fuel : nat) (cluster : Cluster.t)
    (findServer : string → option Server.t) (i : nat) : option string :=
  match fuel with
  | O => None
  | S fuel' =>
      let name := serverNameAt cluster i in
      match findServer name with
      | None => Some name
      | Some _ => nextServerName_probe fuel' cluster findServer (S i)
      end
  end.

(** *** The probe returns: one more probe than there are members is enough *)

Lemma serverNameAt_inj cluster : Inj (=) (=) (serverNameAt cluster).
Proof.
  intros i j Heq. unfold serverNameAt in Heq.
  apply (inj (String.append (Cluster.Name cluster))) in Heq.
  apply (inj (String.append "-")) in Heq.
  by apply (inj pretty) in Heq.
Qed.

Lemma findServer_Some servers name server :
  findServer servers name = Some server →
  server ∈ servers ∧ Server.Name server = name.
Proof.
  induction servers as [|s rest IH]; simpl; [done|].
  case_bool_decide as Hn.
  - intros [= <-]. split; [left | done].
  - intros H. destruct (IH H) as [Hin Hname]. split; [by right | done].
Qed.

Lemma findServer_None servers name :
  findServer servers name = None ↔ name ∉ Server.Name <$> servers.
Proof.
  induction servers as [|s rest IH]; simpl.
  - split; [intros _; apply not_elem_of_nil | done].
  - case_bool_decide as Hn.
    + split; [done | intros Hnot; destruct Hnot; subst; left].
    + rewrite IH, not_elem_of_cons. split; [intros Hr; split; [congruence | done] | by intros [_ Hr]].
Qed.

Lemma nextServerName_probe_None fuel cluster find i :
  nextServerName_probe fuel cluster find i = None →
  ∀ j : nat, (i ≤ j < i + fuel)%nat → find (serverNameAt cluster j) ≠ None.
Proof.
  revert i. induction fuel as [|fuel IH]; intros i Hnone j Hj; [lia|].
  simpl in Hnone.
  destruct (find (serverNameAt cluster i)) eqn:Hi; [|done].
  destruct (decide (j = i)) as [->|Hne]; [by rewrite Hi|].
  apply (IH (S i) Hnone). lia.
Qed.

Lemma nextServerName_probe_enough cluster servers :
  is_Some (nextServerName_probe (S (length servers)) cluster (findServer servers) 0).
Proof.
  destruct (nextServerName_probe _ _ _ _) eqn:Hp; [by eexists|]. exfalso.
  pose proof (nextServerName_probe_None _ _ _ _ Hp) as Hall.
  set (names := serverNameAt cluster <$> seq 0 (S (length servers))).
  assert (Hnd : NoDup names).
  { apply (NoDup_fmap_2 _). apply NoDup_seq. }
  assert (Hsub : ∀ x, x ∈ names → x ∈ Server.Name <$> servers).
  { intros x [j [-> Hj]]%list_elem_of_fmap. apply elem_of_seq in Hj.
    destruct (decide (serverNameAt cluster j ∈ Server.Name <$> servers)) as [|Hn]; [done|].
    apply findServer_None in Hn. destruct (Hall j); [lia | done]. }
  pose proof (submseteq_length _ _ (NoDup_submseteq _ _ Hnd Hsub)) as Hlen.
  unfold names in Hlen. rewrite !length_fmap, length_seq in Hlen. lia.
Qed.

(** [nextServerName(cluster, findServer)], with [findServer] the closure of
    [Reconcile] over the observed [servers]. *)
Definition nextServerName (cluster : Cluster.t) (servers : list Server.t) : string :=
  match nextServerName_probe (S (length servers)) cluster (findServer servers) 0 as o
        return is_Some o → string with
  | Some name => λ _, name
  | None => λ H, False_rect string (is_Some_None H)
  end (nextServerName_probe_enough cluster servers).

(** ** Building members and instances: [serverShell], [serverApply] *)

Definition emptyServerSpec : ServerSpec.t := ServerSpec.mk "" None "" [] "" None.
Definition emptyServerStatus : ServerStatus.t := ServerStatus.mk false false None None.

Definition serverShell (cluster : Cluster.t) (name : string) : Server.t :=
  Server.mk name (Cluster.Namespace cluster) ∅ emptyServerSpec emptyServerStatus.

(** The loop of [serverApply] over [allServers], appending to [initPeers]. *)
Fixpoint serverApply_peers (server : Server.t) (allServers : list Server.t)
    (initPeers : list string) : list string :=
  match allServers with
  | [] => initPeers
  | peer :: rest =>
      serverApply_peers server rest
        (if bool_decide (Server.Name peer ≠ Server.Name server)
         then match ServerStatus.RaftAddress (Server.Status peer) with
              | Some addr => initPeers ++ [addr]
              | None => initPeers
              end
         else initPeers)
  end.

Definition serverApply (cluster : Cluster.t) (server : Server.t)
    (allServers : list Server.t) : Server.t :=
  let initPeers := serverApply_peers server allServers [] in
  let labels := util.InitLabelMap (Server.Labels server) in
  Server.mk (Server.Name server) (Server.Namespace server)
    (<[OVSDBClusterLabel := Cluster.Name cluster]> labels)
    (ServerSpec.mk
       (ClusterSpec.DBType (Cluster.Spec cluster))
       (ClusterStatus.ClusterID (Cluster.Status cluster))
       (Cluster.Name cluster)
       initPeers
       (ClusterSpec.ServerStorageSize (Cluster.Spec cluster))
       (ClusterSpec.ServerStorageClass (Cluster.Spec cluster)))
    (Server.Status server).

(** Modelled from the spec: [dbServerShell], of another file of the
    controllers package, names the instance after its member. *)
Definition dbServerShell (server : Server.t) : Pod.t :=
  Pod.mk (Server.Name server) (Server.Namespace server) false.

(** ** Status projection (the first half of [Reconcile]) *)

(** [statusChanged]: the status differs from the snapshot [origStatus]. *)
Definition statusChanged (cluster : Cluster.t) (origStatus : ClusterStatus.t) : bool :=
  bool_decide (Cluster.Status cluster ≠ origStatus).

(** [clusterSize]: the loop counting the members that are Available. *)
Fixpoint countAvailable (servers : list Server.t) (clusterSize : Z) : Z :=
  match servers with
  | [] => clusterSize
  | server :: rest =>
      countAvailable rest (if util.IsAvailable server then clusterSize + 1 else clusterSize)
  end.

(** [nAvailable]: the loop counting the instances that are Ready. *)
Fixpoint countReady (serverPods : list Pod.t) (nAvailable : Z) : Z :=
  match serverPods with
  | [] => nAvailable
  | pod :: rest =>
      countReady rest (if util.IsPodReady pod then nAvailable + 1 else nAvailable)
  end.

(** [int(math.Ceil(float64(clusterSize) / 2))].  [clusterSize] counts listed
    members, far below 2^53, where the conversion to float64, the division by
    two and the ceiling are all exact: the value is the ceiling of the
    rational [clusterSize / 2]. *)
Definition quorumOf (clusterSize : Z) : Z :=
  Qceiling (inject_Z clusterSize / inject_Z 2)%Q.

Definition bootstrapMsg (failed : list string) : string :=
  "The following servers have failed to intialize: " +:+ String.concat ", " failed.

(** The loop that sets Failed for members reporting failed.  [failed] is
    declared inside the loop body, as in the source. *)
Fixpoint failedLoop (servers : list Server.t) (cluster : Cluster.t) : Cluster.t :=
  match servers with
  | [] => cluster
  | server :: rest =>
      let failed : list string := [] in
      let failed := if util.IsFailed server then failed ++ [Server.Name server] else failed in
      let cluster :=
        if (0 <? length failed)%nat
        then util.SetFailed cluster OVSDBClusterBootstrap (bootstrapMsg failed)
        else cluster in
      failedLoop rest cluster
  end.

Definition inconsistentMsg (name serverID clusterID : string) : string :=
  "Server " +:+ name +:+ " has inconsistent ClusterID " +:+ serverID +:+
  ". Expected ClusterID " +:+ clusterID.

(** The loop that adopts a ClusterID and flags members that disagree. *)
Fixpoint clusterIDLoop (servers : list Server.t) (cluster : Cluster.t) : Cluster.t :=
  match servers with
  | [] => cluster
  | server :: rest =>
      let cluster :=
        match ClusterStatus.ClusterID (Cluster.Status cluster) with
        | None => withClusterID cluster (ServerStatus.ClusterID (Server.Status server))
        | Some clusterID =>
            match ServerStatus.ClusterID (Server.Status server) with
            | Some serverID =>
                if bool_decide (clusterID ≠ serverID)
                then util.SetFailed cluster OVSDBClusterInconsistent
                       (inconsistentMsg (Server.Name server) serverID clusterID)
                else cluster
            | None => cluster
            end
        end in
      clusterIDLoop rest cluster
  end.

(** Lines 155 to 221: availability, quorum, Failed and ClusterID. *)
Definition projectStatus (servers : list Server.t) (serverPods : list Pod.t)
    (cluster : Cluster.t) : Cluster.t :=
  let clusterSize := countAvailable servers 0 in
  let clusterQuorum := quorumOf clusterSize in
  let nAvailable := countReady serverPods 0 in
  let cluster :=
    if (nAvailable >=? clusterQuorum) && (nAvailable >? 0)
    then util.SetAvailable cluster else util.UnsetAvailable cluster in
  let cluster := withCounts cluster nAvailable clusterSize clusterQuorum in
  let cluster := failedLoop servers cluster in
  clusterIDLoop servers cluster.

(** ** Scaling and instance reconciliation (the second half of [Reconcile]) *)

Definition targetServers (cluster : Cluster.t) : Z :=
  let targetServers := ClusterSpec.Replicas (Cluster.Spec cluster) in
  let targetServers := if targetServers =? 0 then 1 else targetServers in
  if ClusterStatus.ClusterID (Cluster.Status cluster) is None then 1 else targetServers.

(** [for i := len(servers); i < targetServers; i++]: [n] iterations remain and
    the loop variable is [i].  [NeedsUpdate] is a helper of the controllers
    package whose answer [Reconcile] discards.  Both calls receive the shell
    and the closure [apply]; the member recorded with a call is the shell
    after [serverApply] (when the API server already holds a member of that
    name, the same [apply] runs on the stored object). *)
Fixpoint scaleUpLoop (r : Client) (cluster : Cluster.t) (servers : list Server.t)
    (n : nat) (i : Z) : list action * option error :=
  match n with
  | O => ([], None)
  | S n' =>
      let name := nextServerName cluster servers in
      let server := serverApply cluster (serverShell cluster name) servers in
      match CreateOrUpdate r i with
      | Err err => ([ActNeedsUpdate server; ActCreateOrUpdate server], Some err)
      | Ok _ =>
          let '(acts, err) := scaleUpLoop r cluster servers n' (i + 1) in
          (ActNeedsUpdate server :: ActCreateOrUpdate server :: acts, err)
      end
  end.

(** The loop deleting every instance when [Replicas] is zero. *)
Fixpoint deletePodsLoop (r : Client) (serverPods : list Pod.t) (i : nat)
  : list action * option error :=
  match serverPods with
  | [] => ([], None)
  | serverPod :: rest =>
      match Delete r i with
      | Some err =>
          ([ActDelete serverPod],
           Some (WrapErrorForObject "Delete server pod" (Pod.Name serverPod) err))
      | None =>
          let '(acts, err) := deletePodsLoop r rest (S i) in
          (ActDelete serverPod :: acts, err)
      end
  end.

(** What one iteration of the per-member loop decides before it calls
    [CreateOrDelete]: [PlanSkip] is [continue]. *)
Inductive podPlan : Type :=
  | PlanSkip
  | PlanApply (serverPod : Pod.t) (existing : bool).

Definition planServerPod (serverPods : list Pod.t) (clusterSize clusterQuorum : Z)
    (nAvailable : Z) (server : Server.t) : podPlan :=
  if negb (util.IsAvailable server) then PlanSkip
  else
    match findPod serverPods (Server.Name server) with
    | Some serverPod =>
        if (clusterSize >=? 3) && (nAvailable <=? clusterQuorum) then PlanSkip
        else PlanApply serverPod true
    | None => PlanApply (dbServerShell server) false
    end.

(** The per-member loop; [nAvailable] is the working count it threads.  The
    third component is the working count when the loop stops. *)
Fixpoint serverPodsLoop (r : Client) (serverPods : list Pod.t)
    (clusterSize clusterQuorum : Z) (servers : list Server.t) (i : nat)
    (nAvailable : Z) : list action * option error * Z :=
  match servers with
  | [] => ([], None, nAvailable)
  | server :: rest =>
      match planServerPod serverPods clusterSize clusterQuorum nAvailable server with
      | PlanSkip =>
          serverPodsLoop r serverPods clusterSize clusterQuorum rest (S i) nAvailable
      | PlanApply serverPod existing =>
          match CreateOrDelete r i with
          | Err err =>
              ([ActCreateOrDelete serverPod existing (Err err)],
               Some (WrapErrorForObject "Update server pod" (Pod.Name serverPod) err),
               nAvailable)
          | Ok op =>
              let nAvailable :=
                if bool_decide (op ≠ OperationResultNone)
                then nAvailable - 1 else nAvailable in
              let '(acts, err, final) :=
                serverPodsLoop r serverPods clusterSize clusterQuorum rest (S i)
                               nAvailable in
              (ActCreateOrDelete serverPod existing (Ok op) :: acts, err, final)
          end
      end
  end.

(** Lines 232 to 329, run when the projection left the status unchanged. *)
Definition reconcileActions (r : Client) (cluster : Cluster.t)
    (servers : list Server.t) (serverPods : list Pod.t) : list action * option error :=
  let clusterSize := countAvailable servers 0 in
  let clusterQuorum := quorumOf clusterSize in
  let nAvailable := countReady serverPods 0 in
  let len := Z.of_nat (length servers) in
  match scaleUpLoop r cluster servers (Z.to_nat (targetServers cluster - len)) len with
  | (acts, Some err) => (acts, Some err)
  | (acts, None) =>
      if ClusterSpec.Replicas (Cluster.Spec cluster) =? 0 then
        let '(acts', err) := deletePodsLoop r serverPods 0 in
        (acts ++ acts', err)
      else
        let '(acts', err, _) :=
          serverPodsLoop r serverPods clusterSize clusterQuorum servers 0 nAvailable in
        (acts ++ acts', err)
  end.

(** The body of [Reconcile] once the cluster is fetched: the in-memory
    cluster at return, the calls made, and the error returned. *)
Definition reconcileBody (r : Client) (cluster : Cluster.t)
    (origStatus : ClusterStatus.t) : Cluster.t * list action * option error :=
  let cluster := util.UnsetFailed cluster in
  match getServers r cluster with
  | Err err => (cluster, [], Some err)
  | Ok servers =>
      match getServerPods r cluster with
      | Err err => (cluster, [], Some err)
      | Ok serverPods =>
          let cluster := projectStatus servers serverPods cluster in
          if statusChanged cluster origStatus then (cluster, [], None)
          else
            let '(acts, err) := reconcileActions r cluster servers serverPods in
            (cluster, acts, err)
      end
  end.

(** The deferred function: save the status when it changed; a failure of the
    save is returned only when the body returned no error. *)
Definition deferredStatusUpdate (r : Client) (origStatus : ClusterStatus.t)
    (ret : Cluster.t * list action * option error) : outcome :=
  let '(cluster, acts, err) := ret in
  if statusChanged cluster origStatus then
    match StatusUpdate r with
    | Some updateErr =>
        mkOutcome (Some cluster) (acts ++ [ActStatusUpdate cluster])
          (match err with
           | None => Some (WrapErrorForObject "Update Status" (Cluster.Name cluster) updateErr)
           | Some _ => err
           end)
    | None => mkOutcome (Some cluster) (acts ++ [ActStatusUpdate cluster]) err
    end
  else mkOutcome (Some cluster) acts err.

Definition Reconcile (r : Client) : outcome :=
  match Get r with
  | GetNotFound => mkOutcome None [] None
  | GetFailed err => mkOutcome None [] (Some (WrapErrorForObject "Get cluster" "" err))
  | GetFound cluster =>
      let origStatus := Cluster.Status cluster in
      deferredStatusUpdate r origStatus (reconcileBody r cluster origStatus)
  end.

(** * Vocabulary of the statements *)

(** ** Reading a trace *)

(** The member a call of the scale-up loop is made on. *)
Definition memberOfCall (a : action) : option Server.t :=
  match a with
  | ActNeedsUpdate server | ActCreateOrUpdate server => Some server
  | _ => None
  end.

Definition createdMember (a : action) : option Server.t :=
  match a with
  | ActCreateOrUpdate server => Some server
  | _ => None
  end.

(** [CreateOrDelete] answered something else than [OperationResultNone]: an
    instance was created or replaced. *)
Definition isChange (a : action) : bool :=
  match a with
  | ActCreateOrDelete _ _ (Ok op) => bool_decide (op ≠ OperationResultNone)
  | _ => false
  end.

(** A change to an instance that existed. *)
Definition isReplacement (a : action) : bool :=
  match a with
  | ActCreateOrDelete _ true (Ok op) => bool_decide (op ≠ OperationResultNone)
  | _ => false
  end.

Definition changes (acts : list action) : nat := length (filter isChange acts).
Definition replacements (acts : list action) : nat := length (filter isReplacement acts).

(** The member every iteration of the scale-up loop builds. *)
Definition newMember (cluster : Cluster.t) (servers : list Server.t) : Server.t :=
  serverApply cluster (serverShell cluster (nextServerName cluster servers)) servers.

Definition scaleUpCalls (server : Server.t) (k : nat) : list action :=
  mjoin (replicate k [ActNeedsUpdate server; ActCreateOrUpdate server]).

(** ** The observed slices and the projected cluster *)

(** The slices [Reconcile] works on, and the cluster after the projection. *)
Definition observedServers (members : list Server.t) : list Server.t :=
  merge_sort serverNameLe members.

Definition observedPods (instances : list Pod.t) : list Pod.t :=
  merge_sort podNameLe instances.

Definition projected (cluster : Cluster.t) (members : list Server.t)
    (instances : list Pod.t) : Cluster.t :=
  projectStatus (observedServers members) (observedPods instances)
                (util.UnsetFailed cluster).

(** The Failed condition and the ClusterIDs, as the statements read them. *)
Definition failedCondition (cluster : Cluster.t) : option (FailedReason * string) :=
  ClusterConditions.Failed (util.conditions cluster).

Definition clusterIDOf (cluster : Cluster.t) : option string :=
  ClusterStatus.ClusterID (Cluster.Status cluster).

Definition memberIDOf (server : Server.t) : option string :=
  ServerStatus.ClusterID (Server.Status server).

(** What the projection loops leave alone. *)
Definition sameCounts (c c' : Cluster.t) : Prop :=
  Cluster.Name c' = Cluster.Name c
  ∧ Cluster.Namespace c' = Cluster.Namespace c
  ∧ Cluster.Spec c' = Cluster.Spec c
  ∧ ClusterStatus.AvailableServers (Cluster.Status c')
    = ClusterStatus.AvailableServers (Cluster.Status c)
  ∧ ClusterStatus.ClusterSize (Cluster.Status c') = ClusterStatus.ClusterSize (Cluster.Status c)
  ∧ ClusterStatus.ClusterQuorum (Cluster.Status c')
    = ClusterStatus.ClusterQuorum (Cluster.Status c)
  ∧ ClusterConditions.Available (util.conditions c')
    = ClusterConditions.Available (util.conditions c).

(** ** Example objects *)

Definition exCluster (replicas : Z) (status : ClusterStatus.t) : Cluster.t :=
  Cluster.mk "c" "ns" (ClusterSpec.mk replicas "NB" "1G" None) status.

Definition exServer (name : string) (available failed : bool)
    (clusterID raftAddress : option string) : Server.t :=
  Server.mk name "ns" ∅ emptyServerSpec
            (ServerStatus.mk available failed clusterID raftAddress).

Definition exStatus (clusterID : option string) (nAvailable clusterSize clusterQuorum : Z)
    (available : bool) : ClusterStatus.t :=
  ClusterStatus.mk clusterID nAvailable clusterSize clusterQuorum
                   (ClusterConditions.mk available None).

(** An API server on which every call succeeds: members are created and
    instances are replaced. *)
Definition exClient (cluster : Cluster.t) (members : list Server.t)
    (instances : list Pod.t) : Client :=
  mkClient (GetFound cluster) (Ok members) (Ok instances) None
           (λ _, Ok OperationResultCreated) (λ _, None) (λ _, Ok OperationResultUpdated).

(** ** Reading the calls on instances *)

(** The instance a [CreateOrDelete] call is made on. *)
Definition podOfCall (a : action) : option Pod.t :=
  match a with
  | ActCreateOrDelete pod _ _ => Some pod
  | _ => None
  end.

(** The instance a [Delete] call is made on. *)
Definition deletedPod (a : action) : option Pod.t :=
  match a with
  | ActDelete pod => Some pod
  | _ => None
  end.

(** A call that the API server answered without an error. *)
Definition succeeds {A : Type} (answer : result A) : Prop :=
  match answer with
  | Ok _ => True
  | Err _ => False
  end.

(** The same API server with another answer to the save of the status. *)
Definition withStatusUpdate (r : Client) (answer : option error) : Client :=
  mkClient (Get r) (ListServers r) (ListPods r) answer
           (CreateOrUpdate r) (Delete r) (CreateOrDelete r).

(** The ClusterID of the first member, in slice order, that reports one. *)
Definition firstMemberID (servers : list Server.t) : option string :=
  head (omap memberIDOf servers).

(** * Lemmas *)

(** ** Naming *)

Lemma nextServerName_probe_eq cluster servers :
  nextServerName_probe (S (length servers)) cluster (findServer servers) 0
  = Some (nextServerName cluster servers).
Proof.
  unfold nextServerName.
  generalize (nextServerName_probe_enough cluster servers).
  destruct (nextServerName_probe _ _ _ _); intros Hsome; [done|].
  destruct (is_Some_None Hsome).
Qed.

Lemma nextServerName_probe_first fuel cluster find i name :
  nextServerName_probe fuel cluster find i = Some name →
  ∃ k : nat, (i ≤ k)%nat ∧ name = serverNameAt cluster k
    ∧ find (serverNameAt cluster k) = None
    ∧ ∀ j : nat, (i ≤ j < k)%nat → is_Some (find (serverNameAt cluster j)).
Proof.
  revert i. induction fuel as [|fuel IH]; intros i Hp; [done|].
  simpl in Hp. destruct (find (serverNameAt cluster i)) as [s|] eqn:Hi.
  - destruct (IH _ Hp) as (k & Hk & Hname & Hfree & Hused).
    exists k. repeat split; [lia | done | done |].
    intros j Hj. destruct (decide (j = i)) as [->|Hne]; [by rewrite Hi|].
    apply Hused. lia.
  - injection Hp as <-. exists i. repeat split; [lia | done | lia].
Qed.

Lemma nextServerName_fresh cluster servers :
  nextServerName cluster servers ∉ Server.Name <$> servers.
Proof.
  destruct (nextServerName_probe_first _ _ _ _ _ (nextServerName_probe_eq cluster servers))
    as (k & _ & -> & Hfree & _).
  by apply findServer_None.
Qed.

(** ** Counting and quorum *)

Lemma countAvailable_filter servers clusterSize :
  countAvailable servers clusterSize
  = clusterSize + Z.of_nat (length (filter (λ s : Server.t, util.IsAvailable s) servers)).
Proof.
  revert clusterSize. induction servers as [|s rest IH]; intros n; simpl; [lia|].
  rewrite IH, filter_cons. destruct (util.IsAvailable s); simpl; lia.
Qed.

Lemma countReady_filter serverPods nAvailable :
  countReady serverPods nAvailable
  = nAvailable + Z.of_nat (length (filter (λ p : Pod.t, util.IsPodReady p) serverPods)).
Proof.
  revert nAvailable. induction serverPods as [|p rest IH]; intros n; simpl; [lia|].
  rewrite IH, filter_cons. destruct (util.IsPodReady p); simpl; lia.
Qed.

Lemma quorumOf_half clusterSize : quorumOf clusterSize = (clusterSize + 1) `div` 2.
Proof.
  unfold quorumOf, Qceiling, Qfloor. simpl.
  rewrite Z.mul_1_r. change (Z.pos (1 * 2)) with 2.
  pose proof (Z.div_mod (- clusterSize) 2 ltac:(lia)).
  pose proof (Z.mod_pos_bound (- clusterSize) 2 ltac:(lia)).
  pose proof (Z.div_mod (clusterSize + 1) 2 ltac:(lia)).
  pose proof (Z.mod_pos_bound (clusterSize + 1) 2 ltac:(lia)).
  lia.
Qed.

Lemma quorumOf_ceiling clusterSize :
  clusterSize ≤ 2 * quorumOf clusterSize < clusterSize + 2.
Proof.
  rewrite quorumOf_half.
  pose proof (Z.div_mod (clusterSize + 1) 2 ltac:(lia)).
  pose proof (Z.mod_pos_bound (clusterSize + 1) 2 ltac:(lia)).
  lia.
Qed.

(** ** The projection loops *)

Lemma sameCounts_refl c : sameCounts c c.
Proof. by repeat split. Qed.

Lemma sameCounts_trans c1 c2 c3 : sameCounts c1 c2 → sameCounts c2 c3 → sameCounts c1 c3.
Proof.
  unfold sameCounts. intros (?&?&?&?&?&?&?) (?&?&?&?&?&?&?).
  repeat split; congruence.
Qed.

Lemma sameCounts_SetFailed c reason msg : sameCounts c (util.SetFailed c reason msg).
Proof. by repeat split. Qed.

Lemma sameCounts_withClusterID c id : sameCounts c (withClusterID c id).
Proof. by repeat split. Qed.

Lemma failedLoop_sameCounts servers c : sameCounts c (failedLoop servers c).
Proof.
  revert c. induction servers as [|s rest IH]; intros c; simpl; [apply sameCounts_refl|].
  destruct (util.IsFailed s); simpl; [|apply IH].
  eapply sameCounts_trans; [apply sameCounts_SetFailed | apply IH].
Qed.

Lemma failedLoop_ClusterID servers c :
  ClusterStatus.ClusterID (Cluster.Status (failedLoop servers c))
  = ClusterStatus.ClusterID (Cluster.Status c).
Proof.
  revert c. induction servers as [|s rest IH]; intros c; simpl; [done|].
  destruct (util.IsFailed s); simpl; by rewrite IH.
Qed.

Lemma clusterIDLoop_sameCounts servers c : sameCounts c (clusterIDLoop servers c).
Proof.
  revert c. induction servers as [|s rest IH]; intros c; simpl; [apply sameCounts_refl|].
  destruct (ClusterStatus.ClusterID (Cluster.Status c)) as [cid|].
  - destruct (ServerStatus.ClusterID (Server.Status s)) as [sid|]; [|apply IH].
    case_bool_decide; [|apply IH].
    eapply sameCounts_trans; [apply sameCounts_SetFailed | apply IH].
  - eapply sameCounts_trans; [apply sameCounts_withClusterID | apply IH].
Qed.

Lemma failedLoop_app before after c :
  failedLoop (before ++ after) c = failedLoop after (failedLoop before c).
Proof. revert c. induction before as [|s rest IH]; intros c; simpl; [done | apply IH]. Qed.

Lemma failedLoop_none servers c :
  (∀ s, s ∈ servers → util.IsFailed s = false) →
  failedLoop servers c = c.
Proof.
  revert c. induction servers as [|s rest IH]; intros c Hall; simpl; [done|].
  rewrite (Hall s) by left. simpl. apply IH. intros p Hp. apply Hall. by right.
Qed.

Lemma failedLoop_last before server after c :
  util.IsFailed server = true →
  (∀ s, s ∈ after → util.IsFailed s = false) →
  failedCondition (failedLoop (before ++ server :: after) c)
  = Some (OVSDBClusterBootstrap, bootstrapMsg [Server.Name server]).
Proof.
  intros Hfailed Hafter. rewrite failedLoop_app. simpl. rewrite Hfailed. simpl.
  by rewrite (failedLoop_none after _ Hafter).
Qed.

Lemma failed_members_last (servers : list Server.t) :
  (∃ s, s ∈ servers ∧ util.IsFailed s = true) →
  ∃ before server after,
    servers = before ++ server :: after
    ∧ util.IsFailed server = true
    ∧ ∀ s, s ∈ after → util.IsFailed s = false.
Proof.
  induction servers as [|s rest IH]; intros (bad & Hin & Hbad).
  { by apply elem_of_nil in Hin. }
  destruct (decide (Exists (λ p, util.IsFailed p = true) rest)) as [Hex|Hnex].
  - apply Exists_exists in Hex as (p & Hp & Hpf).
    destruct IH as (before & server & after & -> & Hf & Hafter); [by exists p|].
    by exists (s :: before), server, after.
  - assert (Hrest : ∀ p, p ∈ rest → util.IsFailed p = false).
    { intros p Hp. destruct (util.IsFailed p) eqn:Hpf; [|done].
      destruct Hnex. apply Exists_exists. by exists p. }
    apply elem_of_cons in Hin as [->|Hin]; [|rewrite (Hrest _ Hin) in Hbad; done].
    by exists [], s, rest.
Qed.

Lemma clusterIDLoop_clusterID_Some servers c id :
  clusterIDOf c = Some id → clusterIDOf (clusterIDLoop servers c) = Some id.
Proof.
  unfold clusterIDOf. revert c. induction servers as [|s rest IH]; intros c Hc; simpl; [done|].
  rewrite Hc. destruct (ServerStatus.ClusterID (Server.Status s)); [|by apply IH].
  case_bool_decide; by apply IH.
Qed.

Lemma clusterIDLoop_consistent servers c id :
  clusterIDOf c = Some id →
  (∀ s, s ∈ servers → memberIDOf s = None ∨ memberIDOf s = Some id) →
  failedCondition (clusterIDLoop servers c) = failedCondition c.
Proof.
  unfold clusterIDOf, memberIDOf.
  revert c. induction servers as [|s rest IH]; intros c Hc Hall; simpl; [done|].
  rewrite Hc.
  assert (Hrest : ∀ p, p ∈ rest →
    ServerStatus.ClusterID (Server.Status p) = None
    ∨ ServerStatus.ClusterID (Server.Status p) = Some id)
    by (intros p Hp; apply Hall; by right).
  destruct (Hall s ltac:(left)) as [Hs|Hs]; rewrite Hs; [by apply IH|].
  rewrite bool_decide_eq_false_2 by (intros Hne; by apply Hne). by apply IH.
Qed.

(** The ClusterID loop leaves Failed naming a member that disagrees with the
    ClusterID the cluster ends with, whenever there is one. *)
Lemma clusterIDLoop_inconsistent servers c id :
  clusterIDOf (clusterIDLoop servers c) = Some id →
  (∃ s sid, s ∈ servers ∧ memberIDOf s = Some sid ∧ sid ≠ id) →
  ∃ s sid, s ∈ servers ∧ memberIDOf s = Some sid ∧ sid ≠ id
    ∧ failedCondition (clusterIDLoop servers c)
      = Some (OVSDBClusterInconsistent, inconsistentMsg (Server.Name s) sid id).
Proof.
  revert c. induction servers as [|s rest IH]; intros c Hfinal (bad & sid & Hin & Hsid & Hne).
  { by apply elem_of_nil in Hin. }
  simpl in Hfinal |- *.
  set (c1 := match ClusterStatus.ClusterID (Cluster.Status c) with
             | Some _ => _ | None => _ end) in *.
  destruct (decide (Exists (λ p, memberIDOf p ≠ None ∧ memberIDOf p ≠ Some id) rest))
    as [Hex|Hnex].
  - apply Exists_exists in Hex as (p & Hp & Hpn & Hpne).
    destruct (memberIDOf p) as [pid|] eqn:Hpid; [|done].
    destruct (IH c1 Hfinal) as (s' & sid' & Hs' & ? & ? & ?).
    { exists p, pid. repeat split; [done | done | congruence]. }
    exists s', sid'. repeat split; [by right | done | done | done].
  - assert (Hrest : ∀ p, p ∈ rest → memberIDOf p = None ∨ memberIDOf p = Some id).
    { intros p Hp. destruct (memberIDOf p) as [pid|] eqn:Hpid; [|by left].
      right. f_equal. destruct (decide (pid = id)) as [|Hpne]; [done|].
      destruct Hnex. apply Exists_exists. exists p. rewrite Hpid.
      repeat split; [done | done | congruence]. }
    apply elem_of_cons in Hin as [->|Hin];
      [|destruct (Hrest _ Hin) as [Hn|Hs']; rewrite Hsid in *; congruence].
    unfold memberIDOf in Hsid. unfold c1 in *. clear c1.
    destruct (ClusterStatus.ClusterID (Cluster.Status c)) as [cid|] eqn:Hc.
    + assert (cid = id) as ->.
      { rewrite Hsid in Hfinal.
        assert (Hc1 : ∀ c1, clusterIDOf c1 = Some cid →
                            clusterIDOf (clusterIDLoop rest c1) = Some cid)
          by (intros; by apply clusterIDLoop_clusterID_Some).
        case_bool_decide; rewrite Hc1 in Hfinal by done; congruence. }
      rewrite Hsid. rewrite bool_decide_eq_true_2 by congruence.
      exists s, sid. repeat split; [left | done | done |].
      by rewrite (clusterIDLoop_consistent rest _ id).
    + rewrite (clusterIDLoop_clusterID_Some rest _ sid) in Hfinal by (by rewrite <- Hsid).
      congruence.
Qed.

Lemma statusChanged_true c orig : statusChanged c orig = true ↔ Cluster.Status c ≠ orig.
Proof. unfold statusChanged. apply bool_decide_eq_true. Qed.

Lemma statusChanged_false c orig : statusChanged c orig = false ↔ Cluster.Status c = orig.
Proof.
  unfold statusChanged. rewrite bool_decide_eq_false.
  split; [apply dec_stable | by intros -> ?].
Qed.

Lemma observedServers_names members :
  Server.Name <$> observedServers members ≡ₚ Server.Name <$> members.
Proof. unfold observedServers. by rewrite merge_sort_Permutation. Qed.

Lemma observedServers_elem members server :
  server ∈ observedServers members ↔ server ∈ members.
Proof. unfold observedServers. by rewrite merge_sort_Permutation. Qed.

Lemma projected_counts cluster members instances :
  let st := Cluster.Status (projected cluster members instances) in
  ClusterStatus.ClusterSize st
  = Z.of_nat (length (filter (λ s : Server.t, util.IsAvailable s) members))
  ∧ ClusterStatus.ClusterQuorum st = quorumOf (ClusterStatus.ClusterSize st)
  ∧ ClusterStatus.AvailableServers st
    = Z.of_nat (length (filter (λ p : Pod.t, util.IsPodReady p) instances))
  ∧ ClusterConditions.Available (ClusterStatus.Conditions st)
    = (ClusterStatus.AvailableServers st >=? ClusterStatus.ClusterQuorum st)
      && (ClusterStatus.AvailableServers st >? 0).
Proof.
  unfold projected, projectStatus.
  set (servers := observedServers members). set (pods := observedPods instances).
  set (cs := countAvailable servers 0). set (na := countReady pods 0).
  set (c1 := if (na >=? quorumOf cs) && (na >? 0) then _ else _).
  destruct (clusterIDLoop_sameCounts servers
              (failedLoop servers (withCounts c1 na cs (quorumOf cs))))
    as (_&_&_&Ha&Hs&Hq&Hav).
  destruct (failedLoop_sameCounts servers (withCounts c1 na cs (quorumOf cs)))
    as (_&_&_&Ha'&Hs'&Hq'&Hav').
  unfold util.conditions in *. simpl.
  rewrite Ha, Hs, Hq, Hav, Ha', Hs', Hq', Hav'. simpl.
  assert (Hcs : cs = Z.of_nat (length (filter (λ s : Server.t, util.IsAvailable s) members))).
  { unfold cs. rewrite countAvailable_filter. unfold servers, observedServers.
    by rewrite merge_sort_Permutation. }
  assert (Hna : na = Z.of_nat (length (filter (λ p : Pod.t, util.IsPodReady p) instances))).
  { unfold na. rewrite countReady_filter. unfold pods, observedPods.
    by rewrite merge_sort_Permutation. }
  rewrite <- Hcs, <- Hna. repeat split.
  unfold c1. by destruct ((na >=? quorumOf cs) && (na >? 0)).
Qed.

Lemma projected_counts_observed cluster members instances :
  let st := Cluster.Status (projected cluster members instances) in
  ClusterStatus.ClusterSize st = countAvailable (observedServers members) 0
  ∧ ClusterStatus.AvailableServers st = countReady (observedPods instances) 0.
Proof.
  destruct (projected_counts cluster members instances) as (Hsize & _ & Hav & _).
  cbv zeta. rewrite Hsize, Hav, countAvailable_filter, countReady_filter.
  unfold observedServers, observedPods. by rewrite !merge_sort_Permutation.
Qed.

Lemma projected_frame cluster members instances :
  Cluster.Name (projected cluster members instances) = Cluster.Name cluster
  ∧ Cluster.Namespace (projected cluster members instances) = Cluster.Namespace cluster
  ∧ Cluster.Spec (projected cluster members instances) = Cluster.Spec cluster.
Proof.
  unfold projected, projectStatus.
  match goal with
  | |- context [clusterIDLoop ?ss (failedLoop ?ss ?c)] =>
      destruct (sameCounts_trans _ _ _ (failedLoop_sameCounts ss c)
                  (clusterIDLoop_sameCounts ss (failedLoop ss c)))
        as (Hn & Hns & Hsp & _)
  end.
  rewrite Hn, Hns, Hsp.
  by destruct (_ && _).
Qed.

Lemma projected_stable cluster members instances :
  Cluster.Status (projected cluster members instances) = Cluster.Status cluster →
  projected cluster members instances = cluster.
Proof.
  destruct (projected_frame cluster members instances) as (Hn & Hns & Hsp).
  destruct (projected cluster members instances), cluster; simpl in *.
  intros. by subst.
Qed.

Lemma nextServerName_projected cluster members instances servers :
  nextServerName (projected cluster members instances) servers
  = nextServerName cluster servers.
Proof.
  unfold nextServerName.
  generalize (nextServerName_probe_enough (projected cluster members instances) servers).
  generalize (nextServerName_probe_enough cluster servers).
  assert (Hprobe : ∀ fuel i,
    nextServerName_probe fuel (projected cluster members instances) (findServer servers) i
    = nextServerName_probe fuel cluster (findServer servers) i).
  { induction fuel as [|fuel IH]; intros i; simpl; [done|].
    unfold serverNameAt.
    destruct (projected_frame cluster members instances) as (-> & _).
    fold (serverNameAt cluster i).
    destruct (findServer servers (serverNameAt cluster i)); [apply IH | done]. }
  rewrite Hprobe.
  destruct (nextServerName_probe _ cluster _ _); intros H1 H2; [done|].
  destruct (is_Some_None H1).
Qed.

Lemma newMember_name cluster members instances servers :
  Server.Name (newMember (projected cluster members instances) servers)
  = nextServerName cluster servers.
Proof. unfold newMember. simpl. apply nextServerName_projected. Qed.

(** ** The scale-up loop and [serverApply] *)

Lemma scaleUpLoop_calls r cluster servers n i :
  ∃ k : nat,
    (k ≤ n)%nat ∧ (n ≠ 0 → k ≠ 0)%nat
    ∧ (scaleUpLoop r cluster servers n i).1 = scaleUpCalls (newMember cluster servers) k
    ∧ ((scaleUpLoop r cluster servers n i).2 = None → k = n).
Proof.
  revert i. induction n as [|n IH]; intros i; simpl.
  - exists 0%nat. by repeat split.
  - fold (newMember cluster servers). destruct (CreateOrUpdate r i) as [op|err].
    + destruct (IH (i + 1)) as (k & Hk & _ & Hacts & Hnone).
      destruct (scaleUpLoop r cluster servers n (i + 1)) as [acts err] eqn:Hloop.
      simpl in *. exists (S k). repeat split; [lia | lia | by rewrite Hacts |].
      intros Herr. by rewrite (Hnone Herr).
    + exists 1%nat. repeat split; [lia | lia | done].
Qed.

Lemma scaleUpCalls_created server k :
  omap createdMember (scaleUpCalls server k) = replicate k server.
Proof.
  unfold scaleUpCalls. induction k as [|k IH]; simpl; [done|]. f_equal. exact IH.
Qed.

Lemma scaleUpCalls_members server k a s :
  a ∈ scaleUpCalls server k → memberOfCall a = Some s → s = server.
Proof.
  unfold scaleUpCalls. induction k as [|k IH]; simpl; [by intros ?%elem_of_nil|].
  rewrite !elem_of_cons. intros [->|[->|Hin]]; simpl; [congruence | congruence | by apply IH].
Qed.

Lemma createdMember_memberOfCall a s : createdMember a = Some s → memberOfCall a = Some s.
Proof. by destruct a. Qed.

Lemma omap_createdMember_nil acts :
  (∀ a, a ∈ acts → memberOfCall a = None) → omap createdMember acts = [].
Proof.
  induction acts as [|a acts IH]; intros Hall; simpl; [done|].
  destruct (createdMember a) as [s|] eqn:Ha.
  - apply createdMember_memberOfCall in Ha. rewrite Hall in Ha by left. done.
  - apply IH. intros b Hb. apply Hall. by right.
Qed.

Lemma serverApply_peers_omap server allServers initPeers :
  serverApply_peers server allServers initPeers
  = initPeers
    ++ omap (λ peer : Server.t, ServerStatus.RaftAddress (Server.Status peer))
            (filter (λ peer : Server.t, Server.Name peer ≠ Server.Name server) allServers).
Proof.
  revert initPeers. induction allServers as [|peer rest IH]; intros acc; simpl.
  - by rewrite app_nil_r.
  - rewrite IH, filter_cons. case_bool_decide as Hn.
    + rewrite decide_True by done. simpl.
      destruct (ServerStatus.RaftAddress (Server.Status peer)); [|done].
      by rewrite <- app_assoc.
    + rewrite decide_False by tauto. done.
Qed.

Lemma filter_other_names (servers : list Server.t) (name : string) :
  name ∉ Server.Name <$> servers →
  filter (λ peer : Server.t, Server.Name peer ≠ name) servers = servers.
Proof.
  induction servers as [|s rest IH]; simpl; [done|].
  rewrite not_elem_of_cons. intros [Hne Hrest].
  rewrite filter_cons, decide_True by done. by rewrite IH.
Qed.

(** ** The loops over instances *)

(** One iteration of [serverPodsLoop] under an induction hypothesis [IH]. *)
Ltac step_serverPodsLoop IH :=
  match goal with
  | |- context [serverPodsLoop ?r ?pods ?cs ?cq ?rest (S ?i) ?m] =>
      specialize (IH (S i) m);
      destruct (serverPodsLoop r pods cs cq rest (S i) m) as [[? ?] ?]
  end.

Lemma deletePodsLoop_no_member r serverPods i a :
  a ∈ (deletePodsLoop r serverPods i).1 → memberOfCall a = None.
Proof.
  revert i. induction serverPods as [|p rest IH]; intros i; simpl; [by intros ?%elem_of_nil|].
  destruct (Delete r i).
  - simpl. by intros ->%list_elem_of_singleton.
  - specialize (IH (S i)). destruct (deletePodsLoop r rest (S i)) as [acts err].
    simpl in *. rewrite elem_of_cons. intros [->|Hin]; [done | by apply IH].
Qed.

Lemma serverPodsLoop_no_member r serverPods cs cq servers i n a :
  a ∈ (serverPodsLoop r serverPods cs cq servers i n).1.1 → memberOfCall a = None.
Proof.
  revert i n. induction servers as [|s rest IH]; intros i n; simpl;
    [by intros ?%elem_of_nil|].
  destruct (planServerPod serverPods cs cq n s) as [|pod existing]; [apply IH|].
  destruct (CreateOrDelete r i) as [op|err].
  - step_serverPodsLoop IH. simpl in *. rewrite elem_of_cons. intros [->|Hin]; [done | by apply IH].
  - simpl. by intros ->%list_elem_of_singleton.
Qed.

Lemma planServerPod_existing serverPods cs cq n server serverPod :
  util.IsAvailable server = true →
  findPod serverPods (Server.Name server) = Some serverPod →
  planServerPod serverPods cs cq n server
  = if (cs >=? 3) && (n <=? cq) then PlanSkip else PlanApply serverPod true.
Proof. intros Hav Hpod. unfold planServerPod. by rewrite Hav, Hpod. Qed.

Lemma planServerPod_replace serverPods cs cq n server serverPod :
  planServerPod serverPods cs cq n server = PlanApply serverPod true →
  cs < 3 ∨ cq < n.
Proof.
  unfold planServerPod. destruct (negb _); [done|].
  destruct (findPod _ _); [|done].
  destruct (Z.geb_spec cs 3); destruct (Z.leb_spec n cq); simpl; try done; lia.
Qed.

Lemma serverPodsLoop_working_count r serverPods cs cq servers i n :
  (serverPodsLoop r serverPods cs cq servers i n).2
  = n - Z.of_nat (changes (serverPodsLoop r serverPods cs cq servers i n).1.1).
Proof.
  unfold changes. revert i n. induction servers as [|s rest IH]; intros i n; simpl; [lia|].
  destruct (planServerPod serverPods cs cq n s) as [|pod existing]; [apply IH|].
  destruct (CreateOrDelete r i) as [op|err]; [|simpl; lia].
  step_serverPodsLoop IH. simpl in *. rewrite filter_cons. simpl.
  case_bool_decide; simpl; lia.
Qed.

Lemma serverPodsLoop_app r serverPods cs cq pre post i n :
  (serverPodsLoop r serverPods cs cq pre i n).1.2 = None →
  serverPodsLoop r serverPods cs cq (pre ++ post) i n
  = let '(acts, _, n') := serverPodsLoop r serverPods cs cq pre i n in
    let '(acts', err, final) :=
      serverPodsLoop r serverPods cs cq post (i + length pre)%nat n' in
    (acts ++ acts', err, final).
Proof.
  revert i n. induction pre as [|s rest IH]; intros i n; simpl.
  - intros _. rewrite Nat.add_0_r. by destruct (serverPodsLoop _ _ _ _ _ _ _) as [[??]?].
  - destruct (planServerPod serverPods cs cq n s) as [|pod existing].
    + intros Herr. rewrite (IH _ _ Herr). by rewrite Nat.add_succ_r.
    + destruct (CreateOrDelete r i) as [op|err]; [|done].
      step_serverPodsLoop IH. simpl. intros Herr. rewrite (IH Herr), Nat.add_succ_r.
      by destruct (serverPodsLoop _ _ _ _ post _ _) as [[??]?].
Qed.

(** With at least three members in the cluster, a working count at most one
    above the quorum lets at most one existing instance be replaced, and a
    working count at the quorum lets none. *)
Lemma serverPodsLoop_replacements r serverPods cs cq servers i n :
  3 ≤ cs → n ≤ cq + 1 →
  (replacements (serverPodsLoop r serverPods cs cq servers i n).1.1 ≤ 1)%nat
  ∧ (n ≤ cq → replacements (serverPodsLoop r serverPods cs cq servers i n).1.1 = 0%nat).
Proof.
  intros Hcs. unfold replacements.
  revert i n. induction servers as [|s rest IH]; intros i n Hn; simpl.
  - split; [lia | done].
  - destruct (planServerPod serverPods cs cq n s) as [|pod existing] eqn:Hplan; [by apply IH|].
    destruct (CreateOrDelete r i) as [op|err];
      [|destruct existing; simpl; split; [lia | done | lia | done]].
    match goal with
    | |- context [serverPodsLoop r serverPods cs cq rest (S i) ?m] =>
        pose proof (IH (S i) m) as IH';
        destruct (serverPodsLoop r serverPods cs cq rest (S i) m) as [[acts err] fin]
    end.
    simpl in *. rewrite filter_cons.
    destruct existing; simpl.
    + apply planServerPod_replace in Hplan as [Hlt|Hlt]; [lia|].
      case_bool_decide as Hop; simpl.
      * destruct IH' as [_ Hzero]; [lia|]. rewrite Hzero by lia. split; lia.
      * destruct IH' as [Hle Hzero]; [lia|]. split; [done | lia].
    + case_bool_decide as Hop; simpl.
      * destruct IH' as [Hle Hzero]; [lia|]. split; [done | intros; apply Hzero; lia].
      * destruct IH' as [Hle Hzero]; [lia|]. split; done.
Qed.

Lemma replacements_app acts acts' :
  replacements (acts ++ acts') = (replacements acts + replacements acts')%nat.
Proof. unfold replacements. by rewrite filter_app, length_app. Qed.

Lemma replacements_none acts :
  (∀ a, a ∈ acts → isReplacement a = false) → replacements acts = 0%nat.
Proof.
  unfold replacements. induction acts as [|a acts IH]; intros Hall; [done|].
  rewrite filter_cons, (Hall a) by left. simpl. apply IH. intros b Hb. apply Hall. by right.
Qed.

Lemma scaleUpCalls_replacements server k : replacements (scaleUpCalls server k) = 0%nat.
Proof.
  apply replacements_none. unfold scaleUpCalls.
  induction k as [|k IH]; simpl; [by intros a ?%elem_of_nil|].
  intros a. rewrite !elem_of_cons. intros [->|[->|Hin]]; [done | done | by apply IH].
Qed.

Lemma deletePodsLoop_replacements r serverPods i :
  replacements (deletePodsLoop r serverPods i).1 = 0%nat.
Proof.
  apply replacements_none.
  revert i. induction serverPods as [|p rest IH]; intros i; simpl; [by intros a ?%elem_of_nil|].
  destruct (Delete r i).
  - simpl. by intros a ->%list_elem_of_singleton.
  - specialize (IH (S i)). destruct (deletePodsLoop r rest (S i)) as [acts err].
    simpl in *. intros a. rewrite elem_of_cons. intros [->|Hin]; [done | by apply IH].
Qed.

(** ** The second half of a cycle *)

(** The calls of the second half: the scale-up calls, all on the same new
    member, followed by calls on instances only. *)
Lemma reconcileActions_calls r cluster servers serverPods :
  ∃ (k : nat) (podCalls : list action),
    (reconcileActions r cluster servers serverPods).1
    = scaleUpCalls (newMember cluster servers) k ++ podCalls
    ∧ (∀ a, a ∈ podCalls → memberOfCall a = None)
    ∧ (k ≤ Z.to_nat (targetServers cluster - Z.of_nat (length servers)))%nat
    ∧ (Z.of_nat (length servers) < targetServers cluster → k ≠ 0%nat).
Proof.
  unfold reconcileActions.
  destruct (scaleUpLoop_calls r cluster servers
              (Z.to_nat (targetServers cluster - Z.of_nat (length servers)))
              (Z.of_nat (length servers))) as (k & Hk & Hk0 & Hacts & _).
  destruct (scaleUpLoop _ _ _ _ _) as [acts [err|]]; simpl in Hacts; subst acts.
  - exists k, []. rewrite app_nil_r.
    repeat split; [by intros a ?%elem_of_nil | done | intros; apply Hk0; lia].
  - destruct (ClusterSpec.Replicas (Cluster.Spec cluster) =? 0).
    + pose proof (deletePodsLoop_no_member r serverPods 0) as Hno.
      destruct (deletePodsLoop r serverPods 0) as [acts' err']. simpl in *.
      exists k, acts'. repeat split; [done | done | intros; apply Hk0; lia].
    + pose proof (serverPodsLoop_no_member r serverPods (countAvailable servers 0)
                    (quorumOf (countAvailable servers 0)) servers 0
                    (countReady serverPods 0)) as Hno.
      destruct (serverPodsLoop _ _ _ _ _ _ _) as [[acts' err'] fin]. simpl in *.
      exists k, acts'. repeat split; [done | done | intros; apply Hk0; lia].
Qed.

Lemma reconcileActions_replacements r cluster servers serverPods :
  3 ≤ countAvailable servers 0 →
  countReady serverPods 0 ≤ quorumOf (countAvailable servers 0) + 1 →
  (replacements (reconcileActions r cluster servers serverPods).1 ≤ 1)%nat.
Proof.
  intros Hcs Hn. unfold reconcileActions.
  destruct (scaleUpLoop_calls r cluster servers
              (Z.to_nat (targetServers cluster - Z.of_nat (length servers)))
              (Z.of_nat (length servers))) as (k & _ & _ & Hacts & _).
  destruct (scaleUpLoop _ _ _ _ _) as [acts [err|]]; simpl in Hacts; subst acts; simpl.
  - rewrite scaleUpCalls_replacements. lia.
  - destruct (ClusterSpec.Replicas (Cluster.Spec cluster) =? 0).
    + pose proof (deletePodsLoop_replacements r serverPods 0) as Hdel.
      destruct (deletePodsLoop r serverPods 0) as [acts' err']. simpl in *.
      rewrite replacements_app, scaleUpCalls_replacements, Hdel. lia.
    + destruct (serverPodsLoop_replacements r serverPods _ _ servers 0 _ Hcs Hn) as [Hle _].
      destruct (serverPodsLoop _ _ _ _ _ _ _) as [[acts' err'] fin]. simpl in *.
      rewrite replacements_app, scaleUpCalls_replacements. lia.
Qed.

(** ** The deferred save of the status *)

Lemma deferredStatusUpdate_cluster r orig c acts err :
  outCluster (deferredStatusUpdate r orig (c, acts, err)) = Some c.
Proof.
  unfold deferredStatusUpdate.
  destruct (statusChanged c orig); [destruct (StatusUpdate r)|]; done.
Qed.

Lemma deferredStatusUpdate_actions r orig c acts err :
  outActions (deferredStatusUpdate r orig (c, acts, err))
  = acts ++ (if statusChanged c orig then [ActStatusUpdate c] else []).
Proof.
  unfold deferredStatusUpdate.
  destruct (statusChanged c orig); [destruct (StatusUpdate r)|]; simpl;
    by rewrite ?app_nil_r.
Qed.

Lemma deferredStatusUpdate_err r orig c acts e :
  outErr (deferredStatusUpdate r orig (c, acts, Some e)) = Some e.
Proof.
  unfold deferredStatusUpdate.
  destruct (statusChanged c orig); [destruct (StatusUpdate r)|]; done.
Qed.

(** ** A cycle whose observation succeeds *)

Section ObservedCycle.
Context (r : Client) (cluster : Cluster.t).
Context (members : list Server.t) (instances : list Pod.t).
Hypothesis Hget : Get r = GetFound cluster.
Hypothesis Hservers : ListServers r = Ok members.
Hypothesis Hpods : ListPods r = Ok instances.

Lemma Reconcile_observed :
  Reconcile r
  = deferredStatusUpdate r (Cluster.Status cluster)
      (if statusChanged (projected cluster members instances) (Cluster.Status cluster)
       then (projected cluster members instances, [], None)
       else
         let '(acts, err) :=
           reconcileActions r (projected cluster members instances)
                            (observedServers members) (observedPods instances) in
         (projected cluster members instances, acts, err)).
Proof.
  unfold Reconcile, reconcileBody, getServers, getServerPods.
  by rewrite Hget, Hservers, Hpods.
Qed.

Lemma Reconcile_outCluster :
  outCluster (Reconcile r) = Some (projected cluster members instances).
Proof.
  rewrite Reconcile_observed.
  destruct (statusChanged _ _); [apply deferredStatusUpdate_cluster|].
  destruct (reconcileActions _ _ _ _). apply deferredStatusUpdate_cluster.
Qed.

Lemma Reconcile_actions :
  outActions (Reconcile r)
  = if statusChanged (projected cluster members instances) (Cluster.Status cluster)
    then [ActStatusUpdate (projected cluster members instances)]
    else (reconcileActions r (projected cluster members instances)
                           (observedServers members) (observedPods instances)).1.
Proof.
  rewrite Reconcile_observed.
  destruct (statusChanged _ _) eqn:Hch.
  - by rewrite deferredStatusUpdate_actions, Hch.
  - destruct (reconcileActions _ _ _ _) as [acts err].
    by rewrite deferredStatusUpdate_actions, Hch, app_nil_r.
Qed.

(** Every call of a cycle on a member is made on the one new member of the
    cycle. *)
Lemma Reconcile_member_calls :
  ∃ (k : nat) (podCalls : list action),
    (∀ a, a ∈ podCalls → memberOfCall a = None)
    ∧ outActions (Reconcile r)
      = scaleUpCalls (newMember (projected cluster members instances)
                                (observedServers members)) k ++ podCalls.
Proof.
  rewrite Reconcile_actions.
  destruct (statusChanged _ _).
  - exists 0%nat, [ActStatusUpdate (projected cluster members instances)].
    split; [by intros a ->%list_elem_of_singleton | done].
  - destruct (reconcileActions_calls r (projected cluster members instances)
                (observedServers members) (observedPods instances))
      as (k & podCalls & -> & Hcalls & _ & _).
    by exists k, podCalls.
Qed.

Lemma Reconcile_member_call a server :
  a ∈ outActions (Reconcile r) →
  memberOfCall a = Some server →
  server = newMember (projected cluster members instances) (observedServers members).
Proof.
  intros Hin Hcall.
  destruct Reconcile_member_calls as (k & podCalls & Hcalls & Hacts).
  rewrite Hacts in Hin. apply elem_of_app in Hin as [Hin|Hin].
  - by apply (scaleUpCalls_members _ _ _ _ Hin).
  - rewrite (Hcalls _ Hin) in Hcall. done.
Qed.

End ObservedCycle.

(** * The claims *)

(** ** Instance reconciliation and quorum *)

(** C1. In the per-member loop, for an Available member whose instance
    exists, [CreateOrDelete] is called iff clusterSize < 3, or clusterSize >= 3
    and the working count is above clusterQuorum; otherwise the member is
    skipped.  The working count with which a member is examined is the count
    the loop started from minus one for each instance created or replaced for
    the members before it, and the loop starts from the number of ready
    instances.  With clusterSize 5, quorum 3 and availableServers 4 a cycle
    replaces the instance of at most one member. *)
Theorem quorum_safe_replacement :
  (∀ (serverPods : list Pod.t) (clusterSize clusterQuorum nAvailable : Z)
     (server : Server.t) (serverPod : Pod.t),
      util.IsAvailable server = true →
      findPod serverPods (Server.Name server) = Some serverPod →
      (planServerPod serverPods clusterSize clusterQuorum nAvailable server
       = PlanApply serverPod true
       ↔ clusterSize < 3 ∨ (3 ≤ clusterSize ∧ clusterQuorum < nAvailable))
      ∧ (planServerPod serverPods clusterSize clusterQuorum nAvailable server = PlanSkip
         ↔ 3 ≤ clusterSize ∧ nAvailable ≤ clusterQuorum))
  ∧ (∀ (r : Client) (serverPods : list Pod.t) (clusterSize clusterQuorum : Z)
       (before rest : list Server.t) (i : nat) (nAvailable : Z),
      let '(acts, err, working) :=
        serverPodsLoop r serverPods clusterSize clusterQuorum before i nAvailable in
      working = nAvailable - Z.of_nat (changes acts)
      ∧ (err = None →
         serverPodsLoop r serverPods clusterSize clusterQuorum (before ++ rest) i nAvailable
         = let '(acts', err', final) :=
             serverPodsLoop r serverPods clusterSize clusterQuorum rest
                            (i + length before)%nat (nAvailable - Z.of_nat (changes acts)) in
           (acts ++ acts', err', final)))
  ∧ (∀ (r : Client) (cluster : Cluster.t) (servers : list Server.t) (serverPods : list Pod.t),
      (scaleUpLoop r cluster servers
         (Z.to_nat (targetServers cluster - Z.of_nat (length servers)))
         (Z.of_nat (length servers))).2 = None →
      ClusterSpec.Replicas (Cluster.Spec cluster) ≠ 0 →
      ∃ scaleUp : list action,
        (reconcileActions r cluster servers serverPods).1
        = scaleUp
          ++ (serverPodsLoop r serverPods (countAvailable servers 0)
                (quorumOf (countAvailable servers 0)) servers 0
                (countReady serverPods 0)).1.1
        ∧ replacements scaleUp = 0%nat)
  ∧ (∀ (r : Client) (cluster cluster' : Cluster.t) (members : list Server.t)
       (instances : list Pod.t),
      Get r = GetFound cluster →
      ListServers r = Ok members →
      ListPods r = Ok instances →
      outCluster (Reconcile r) = Some cluster' →
      ClusterStatus.ClusterSize (Cluster.Status cluster') = 5 →
      ClusterStatus.ClusterQuorum (Cluster.Status cluster') = 3 →
      ClusterStatus.AvailableServers (Cluster.Status cluster') = 4 →
      (replacements (outActions (Reconcile r)) ≤ 1)%nat).
Proof.
  split; [|split; [|split]].
  - intros serverPods cs cq n server serverPod Hav Hpod.
    rewrite (planServerPod_existing _ _ _ _ _ _ Hav Hpod).
    destruct (Z.geb_spec cs 3); destruct (Z.leb_spec n cq); simpl;
      (split; split; intros; first [done | lia]).
  - intros r serverPods cs cq before rest i n.
    pose proof (serverPodsLoop_working_count r serverPods cs cq before i n) as Hcount.
    pose proof (serverPodsLoop_app r serverPods cs cq before rest i n) as Happ.
    destruct (serverPodsLoop r serverPods cs cq before i n) as [[acts err] working].
    simpl in *. split; [done|]. intros Herr. rewrite (Happ Herr). by rewrite Hcount.
  - intros r cluster servers serverPods Hscale Hrep. unfold reconcileActions.
    destruct (scaleUpLoop_calls r cluster servers
                (Z.to_nat (targetServers cluster - Z.of_nat (length servers)))
                (Z.of_nat (length servers))) as (k & _ & _ & Hacts & _).
    destruct (scaleUpLoop _ _ _ _ _) as [acts err]. simpl in Hscale, Hacts. subst err acts.
    rewrite (proj2 (Z.eqb_neq _ _) Hrep).
    destruct (serverPodsLoop _ _ _ _ _ _ _) as [[acts' err'] fin]. simpl.
    exists (scaleUpCalls (newMember cluster servers) k).
    split; [done | apply scaleUpCalls_replacements].
  - intros r cluster cluster' members instances Hget Hs Hp Hout Hsize Hq Hav.
    rewrite (Reconcile_outCluster _ _ _ _ Hget Hs Hp) in Hout. injection Hout as <-.
    destruct (projected_counts_observed cluster members instances) as [Hsize' Hav'].
    rewrite (Reconcile_actions _ _ _ _ Hget Hs Hp).
    destruct (statusChanged _ _); [unfold replacements; simpl; lia|].
    apply reconcileActions_replacements.
    + rewrite <- Hsize', Hsize. lia.
    + rewrite <- Hav', <- Hsize', Hav, Hsize. by vm_compute.
Qed.

Lemma quorum_safe_replacement_witness :
  let cluster := exCluster 5 (exStatus (Some "id") 4 5 3 true) in
  let member := λ name : string, exServer name true false (Some "id") None in
  let members := [member "c-0"; member "c-1"; member "c-2"; member "c-3"; member "c-4"] in
  let instances :=
    [Pod.mk "c-0" "ns" true; Pod.mk "c-1" "ns" true; Pod.mk "c-2" "ns" true;
     Pod.mk "c-3" "ns" true; Pod.mk "c-4" "ns" false] in
  let r := exClient cluster members instances in
  planServerPod instances 5 3 4 (member "c-0") = PlanApply (Pod.mk "c-0" "ns" true) true
  ∧ planServerPod instances 5 3 3 (member "c-1") = PlanSkip
  ∧ planServerPod instances 2 1 1 (member "c-1") = PlanApply (Pod.mk "c-1" "ns" true) true
  ∧ replacements (outActions (Reconcile r)) = 1%nat
  ∧ (replacements (outActions (Reconcile r)) ≤ 1)%nat.
Proof.
  intros cluster member members instances r.
  destruct quorum_safe_replacement as (Hplan & _ & _ & Hone).
  split.
  { apply (Hplan instances 5 3 4 (member "c-0") (Pod.mk "c-0" "ns" true)
                 eq_refl eq_refl). right. lia. }
  split.
  { apply (Hplan instances 5 3 3 (member "c-1") (Pod.mk "c-1" "ns" true)
                 eq_refl eq_refl). lia. }
  split.
  { apply (Hplan instances 2 1 1 (member "c-1") (Pod.mk "c-1" "ns" true)
                 eq_refl eq_refl). left. lia. }
  split; [reflexivity|].
  apply (Hone r cluster (projected cluster members instances) members instances);
    reflexivity.
Defined.

(** ** Availability and quorum of the cluster status *)

(** C2. A cycle that fetched the cluster and listed its members and
    instances leaves a cluster status, which it writes whenever it differs
    from the snapshot, with clusterSize the number of members whose Available
    condition holds, clusterQuorum the ceiling of clusterSize / 2 (0, 1, 1, 2,
    2, 3 for the sizes 0 to 5), availableServers the number of ready instances,
    and Available set iff availableServers >= clusterQuorum and
    availableServers > 0. *)
Theorem Reconcile_status_counts :
  ∀ (r : Client) (cluster : Cluster.t) (members : list Server.t) (instances : list Pod.t),
    Get r = GetFound cluster →
    ListServers r = Ok members →
    ListPods r = Ok instances →
    ∃ cluster' : Cluster.t,
      let st := Cluster.Status cluster' in
      outCluster (Reconcile r) = Some cluster'
      ∧ (st ≠ Cluster.Status cluster →
         outActions (Reconcile r) = [ActStatusUpdate cluster'])
      ∧ ClusterStatus.ClusterSize st
        = Z.of_nat (length (filter (λ s : Server.t, util.IsAvailable s) members))
      ∧ ClusterStatus.ClusterQuorum st = quorumOf (ClusterStatus.ClusterSize st)
      ∧ ClusterStatus.ClusterSize st ≤ 2 * ClusterStatus.ClusterQuorum st
        < ClusterStatus.ClusterSize st + 2
      ∧ quorumOf <$> [0; 1; 2; 3; 4; 5] = [0; 1; 1; 2; 2; 3]
      ∧ ClusterStatus.AvailableServers st
        = Z.of_nat (length (filter (λ p : Pod.t, util.IsPodReady p) instances))
      ∧ (ClusterConditions.Available (ClusterStatus.Conditions st) = true
         ↔ ClusterStatus.ClusterQuorum st ≤ ClusterStatus.AvailableServers st
           ∧ 0 < ClusterStatus.AvailableServers st).
Proof.
  intros r cluster members instances Hget Hs Hp.
  exists (projected cluster members instances). cbv zeta.
  destruct (projected_counts cluster members instances) as (Hsize & Hq & Hav & Hcond).
  split; [by apply Reconcile_outCluster|].
  split.
  { intros Hne. rewrite (Reconcile_actions _ _ _ _ Hget Hs Hp).
    by rewrite (proj2 (statusChanged_true _ _) Hne). }
  split; [done|]. split; [done|].
  split; [rewrite Hq; apply quorumOf_ceiling|].
  split; [by vm_compute|]. split; [done|].
  rewrite Hcond, andb_true_iff, Z.geb_le, Z.gtb_lt. done.
Qed.

Lemma Reconcile_status_counts_witness :
  let cluster := exCluster 3 (exStatus None 0 0 0 false) in
  let members :=
    [exServer "c-0" true false (Some "id") None; exServer "c-1" true false (Some "id") None;
     exServer "c-2" true false (Some "id") None] in
  let instances := [Pod.mk "c-0" "ns" true; Pod.mk "c-1" "ns" true; Pod.mk "c-2" "ns" false] in
  let r := exClient cluster members instances in
  Get r = GetFound cluster ∧ ListServers r = Ok members ∧ ListPods r = Ok instances
  ∧ ∃ cluster' : Cluster.t,
      outCluster (Reconcile r) = Some cluster'
      ∧ outActions (Reconcile r) = [ActStatusUpdate cluster']
      ∧ ClusterStatus.ClusterSize (Cluster.Status cluster') = 3
      ∧ ClusterStatus.ClusterQuorum (Cluster.Status cluster') = 2
      ∧ ClusterStatus.AvailableServers (Cluster.Status cluster') = 2
      ∧ ClusterConditions.Available (ClusterStatus.Conditions (Cluster.Status cluster')) = true.
Proof.
  intros cluster members instances r.
  split; [reflexivity|]. split; [reflexivity|]. split; [reflexivity|].
  destruct (Reconcile_status_counts r cluster members instances eq_refl eq_refl eq_refl)
    as (cluster' & Hout & Hupd & Hsize & Hq & _ & _ & Hav & Hcond).
  exists cluster'. split; [exact Hout|].
  assert (Hsize' : ClusterStatus.ClusterSize (Cluster.Status cluster') = 3)
    by (rewrite Hsize; reflexivity).
  assert (Hq' : ClusterStatus.ClusterQuorum (Cluster.Status cluster') = 2)
    by (rewrite Hq, Hsize'; reflexivity).
  assert (Hav' : ClusterStatus.AvailableServers (Cluster.Status cluster') = 2)
    by (rewrite Hav; reflexivity).
  split.
  { apply Hupd. intros Heq. rewrite Heq in Hsize'. discriminate Hsize'. }
  split; [exact Hsize'|]. split; [exact Hq'|]. split; [exact Hav'|].
  apply Hcond. rewrite Hq', Hav'. lia.
Defined.

(** ** Bootstrap: the target member count *)

(** C3. While the status clusterID of the cluster is null the target member
    count is exactly 1 whatever spec.replicas says; once it is set the target
    is max(replicas, 1) for a replicas that is not negative.  From a cluster
    with a null clusterID and no member, a cycle that reaches the scale-up
    (its projection leaves the status as it was) makes exactly one
    CreateOrUpdate call on a member, named <cluster>-0, whatever replicas
    is. *)
Theorem bootstrap_single_member :
  ∀ (r : Client) (cluster : Cluster.t) (instances : list Pod.t),
    (ClusterStatus.ClusterID (Cluster.Status cluster) = None → targetServers cluster = 1)
    ∧ (is_Some (ClusterStatus.ClusterID (Cluster.Status cluster)) →
       0 ≤ ClusterSpec.Replicas (Cluster.Spec cluster) →
       targetServers cluster = ClusterSpec.Replicas (Cluster.Spec cluster) `max` 1)
    ∧ (Get r = GetFound cluster →
       ListServers r = Ok [] →
       ListPods r = Ok instances →
       ClusterStatus.ClusterID (Cluster.Status cluster) = None →
       Cluster.Status (projected cluster [] instances) = Cluster.Status cluster →
       ∃ server : Server.t,
         omap createdMember (outActions (Reconcile r)) = [server]
         ∧ Server.Name server = (Cluster.Name cluster +:+ "-0")).
Proof.
  intros r cluster instances. split; [|split].
  - intros Hnull. unfold targetServers. by rewrite Hnull.
  - intros [id Hid] Hrep. unfold targetServers. rewrite Hid.
    destruct (Z.eqb_spec (ClusterSpec.Replicas (Cluster.Spec cluster)) 0); lia.
  - intros Hget Hs Hp Hnull Hstable.
    rewrite (Reconcile_actions _ _ _ _ Hget Hs Hp).
    rewrite (proj2 (statusChanged_false _ _) Hstable).
    rewrite (projected_stable _ _ _ Hstable).
    change (observedServers []) with (@nil Server.t).
    destruct (reconcileActions_calls r cluster [] (observedPods instances))
      as (k & podCalls & -> & Hpods & Hle & Hpos).
    assert (Htarget : targetServers cluster = 1)
      by (unfold targetServers; by rewrite Hnull).
    rewrite Htarget in Hle, Hpos. simpl in Hle, Hpos.
    assert (k = 1%nat) as -> by (specialize (Hpos ltac:(lia)); lia).
    exists (newMember cluster []).
    rewrite omap_app, scaleUpCalls_created, (omap_createdMember_nil _ Hpods).
    split; reflexivity.
Qed.

Lemma bootstrap_single_member_witness :
  let cluster := exCluster 5 (exStatus None 0 0 0 false) in
  let r := exClient cluster [] [] in
  targetServers cluster = 1
  ∧ targetServers (exCluster 5 (exStatus (Some "id") 0 0 0 false)) = 5
  ∧ ∃ server : Server.t,
      omap createdMember (outActions (Reconcile r)) = [server]
      ∧ Server.Name server = "c-0".
Proof.
  intros cluster r.
  destruct (bootstrap_single_member r cluster []) as (Hnull & _ & Hone).
  destruct (bootstrap_single_member r (exCluster 5 (exStatus (Some "id") 0 0 0 false)) [])
    as (_ & Hmax & _).
  split; [apply Hnull; reflexivity|].
  split; [rewrite Hmax; [reflexivity | by eexists | simpl; lia]|].
  apply Hone; reflexivity.
Defined.

(** ** The Failed condition *)

(** C4. When a member reports a non-null ClusterID that differs from the
    non-null ClusterID of the cluster (its own, or the one it adopts in this
    cycle), the cycle leaves the Failed condition set with the reason
    Inconsistent and a message naming a member that disagrees, the ID of that
    member and the ID of the cluster; when one member only disagrees the
    message names it.  The condition is written by the ClusterID loop, which
    runs on the result of the loop over failed members: a bootstrap failure
    that loop recorded is overwritten. *)
Theorem clusterID_conflict_sets_failed :
  ∀ (r : Client) (cluster cluster' : Cluster.t) (members : list Server.t)
    (instances : list Pod.t) (member : Server.t) (memberID clusterID : string),
    Get r = GetFound cluster →
    ListServers r = Ok members →
    ListPods r = Ok instances →
    outCluster (Reconcile r) = Some cluster' →
    clusterIDOf cluster' = Some clusterID →
    member ∈ members →
    memberIDOf member = Some memberID →
    memberID ≠ clusterID →
    (∀ id, clusterIDOf cluster = Some id → id = clusterID)
    ∧ (∃ (culprit : Server.t) (culpritID : string),
          culprit ∈ members ∧ memberIDOf culprit = Some culpritID ∧ culpritID ≠ clusterID
          ∧ failedCondition cluster'
            = Some (OVSDBClusterInconsistent,
                    inconsistentMsg (Server.Name culprit) culpritID clusterID))
    ∧ ((∀ other, other ∈ members → memberIDOf other ≠ None →
                 memberIDOf other ≠ Some clusterID → other = member) →
       failedCondition cluster'
       = Some (OVSDBClusterInconsistent,
               inconsistentMsg (Server.Name member) memberID clusterID))
    ∧ (∀ failedMember, failedMember ∈ members → util.IsFailed failedMember = true →
       ∃ (base : Cluster.t) (msg : string),
         cluster' = clusterIDLoop (observedServers members)
                                  (failedLoop (observedServers members) base)
         ∧ failedCondition (failedLoop (observedServers members) base)
           = Some (OVSDBClusterBootstrap, msg)).
Proof.
  intros r cluster cluster' members instances member memberID clusterID
         Hget Hs Hp Hout Hcid Hin Hmid Hne.
  rewrite (Reconcile_outCluster _ _ _ _ Hget Hs Hp) in Hout. injection Hout as <-.
  unfold projected, projectStatus in *.
  set (servers := observedServers members) in *.
  match goal with
  | H : clusterIDOf (clusterIDLoop servers (failedLoop servers ?b)) = _ |- _ =>
      set (base := b) in *
  end.
  assert (Hculprit : ∃ s sid, s ∈ servers ∧ memberIDOf s = Some sid ∧ sid ≠ clusterID).
  { exists member, memberID. repeat split; [by apply observedServers_elem | done | done]. }
  destruct (clusterIDLoop_inconsistent servers (failedLoop servers base) clusterID
              Hcid Hculprit) as (culprit & culpritID & Hcin & Hcmid & Hcne & Hfailed).
  apply (proj1 (observedServers_elem members culprit)) in Hcin.
  split; [|split; [|split]].
  - intros id Hid.
    assert (Hbase : clusterIDOf (failedLoop servers base) = Some id).
    { unfold clusterIDOf. rewrite failedLoop_ClusterID. unfold base.
      destruct (_ && _); exact Hid. }
    rewrite (clusterIDLoop_clusterID_Some servers _ id Hbase) in Hcid. congruence.
  - by exists culprit, culpritID.
  - intros Honly.
    assert (culprit = member) as ->.
    { apply Honly; [done | congruence | congruence]. }
    rewrite Hfailed. congruence.
  - intros failedMember Hfin Hf. exists base.
    destruct (failed_members_last servers) as (before & server & after & Heq & Hsf & Hafter).
    { exists failedMember. split; [by apply observedServers_elem | done]. }
    exists (bootstrapMsg [Server.Name server]). split; [done|].
    rewrite Heq. by apply failedLoop_last.
Qed.

Lemma clusterID_conflict_sets_failed_witness :
  let cluster := exCluster 3 (exStatus None 0 0 0 false) in
  let members :=
    [exServer "c-0" true true (Some "id-a") None;
     exServer "c-1" true false (Some "id-b") None] in
  let r := exClient cluster members [] in
  ∃ cluster' : Cluster.t,
    outCluster (Reconcile r) = Some cluster'
    ∧ clusterIDOf cluster' = Some "id-a"
    ∧ failedCondition (failedLoop (observedServers members) (util.UnsetFailed cluster))
      = Some (OVSDBClusterBootstrap, "The following servers have failed to intialize: c-0")
    ∧ failedCondition cluster'
      = Some (OVSDBClusterInconsistent,
              "Server c-1 has inconsistent ClusterID id-b. Expected ClusterID id-a").
Proof.
  intros cluster members r.
  exists (projected cluster members []).
  split; [reflexivity|]. split; [reflexivity|]. split; [reflexivity|].
  destruct (clusterID_conflict_sets_failed r cluster (projected cluster members [])
              members [] (exServer "c-1" true false (Some "id-b") None) "id-b" "id-a"
              eq_refl eq_refl eq_refl eq_refl eq_refl)
    as (_ & _ & Honly & _).
  - right. left.
  - reflexivity.
  - discriminate.
  - rewrite Honly; [reflexivity|].
    intros other Hin Hsome Hdiff.
    apply elem_of_cons in Hin as [->|Hin]; [by destruct Hdiff|].
    apply elem_of_cons in Hin as [->|Hin]; [reflexivity|].
    by apply elem_of_nil in Hin.
Defined.

(** C5 (the code departs from it). The Failed condition is unset at the
    start of the cycle and stays unset when no member reports failed.  The
    loop over failed members builds the list of names afresh in every
    iteration: the condition it leaves names the last member that reports
    failed, alone, and not all of them.  With the members c-0 and c-1 both
    reporting failed, the cycle leaves the message naming c-1 only. *)
Theorem failed_message_names_last_member_only :
  (∀ (before after : list Server.t) (server : Server.t) (cluster : Cluster.t),
      util.IsFailed server = true →
      (∀ s : Server.t, s ∈ after → util.IsFailed s = false) →
      failedCondition (failedLoop (before ++ server :: after) (util.UnsetFailed cluster))
      = Some (OVSDBClusterBootstrap,
              "The following servers have failed to intialize: " +:+ Server.Name server))
  ∧ (∀ (servers : list Server.t) (cluster : Cluster.t),
      (∀ s : Server.t, s ∈ servers → util.IsFailed s = false) →
      failedCondition (failedLoop servers (util.UnsetFailed cluster)) = None)
  ∧ failedCondition
      <$> outCluster
            (Reconcile
               (exClient (exCluster 3 (exStatus (Some "id") 0 0 0 false))
                  [exServer "c-0" false true (Some "id") None;
                   exServer "c-1" false true (Some "id") None] []))
      = Some (Some (OVSDBClusterBootstrap,
                    "The following servers have failed to intialize: c-1")).
Proof.
  split; [|split].
  - intros before after server cluster Hfailed Hafter.
    by rewrite (failedLoop_last before server after _ Hfailed Hafter).
  - intros servers cluster Hnone. by rewrite (failedLoop_none servers _ Hnone).
  - by vm_compute.
Qed.

Lemma failed_message_names_last_member_only_witness :
  let cluster := exCluster 3 (exStatus (Some "id") 0 0 0 false) in
  let members :=
    [exServer "c-0" false true (Some "id") None; exServer "c-1" false true (Some "id") None] in
  failedCondition (failedLoop members (util.UnsetFailed cluster))
  = Some (OVSDBClusterBootstrap, "The following servers have failed to intialize: c-1")
  ∧ failedCondition (failedLoop [exServer "c-2" true false (Some "id") None]
                                (util.UnsetFailed cluster)) = None
  ∧ bootstrapMsg (Server.Name <$> filter (λ s : Server.t, util.IsFailed s) members)
    = "The following servers have failed to intialize: c-0, c-1".
Proof.
  intros cluster members.
  destruct failed_message_names_last_member_only as (Hlast & Hnone & _).
  split.
  { apply (Hlast [exServer "c-0" false true (Some "id") None] []
                 (exServer "c-1" false true (Some "id") None) cluster eq_refl).
    intros s Hs. by apply elem_of_nil in Hs. }
  split; [|reflexivity].
  apply Hnone. intros s Hs.
  apply elem_of_cons in Hs as [->|Hs]; [reflexivity | by apply elem_of_nil in Hs].
Defined.

(** ** Early exits *)

(** C6. When the projection changed the status relative to the snapshot
    taken at the start of the cycle, the cycle returns right after it: the
    only call it makes is the save of the new status, so no member is created
    or updated and no instance is created, replaced or deleted in that pass;
    the only error it can return is that of the save. *)
Theorem status_change_stops_cycle :
  ∀ (r : Client) (cluster : Cluster.t) (members : list Server.t) (instances : list Pod.t),
    Get r = GetFound cluster →
    ListServers r = Ok members →
    ListPods r = Ok instances →
    Cluster.Status (projected cluster members instances) ≠ Cluster.Status cluster →
    outActions (Reconcile r) = [ActStatusUpdate (projected cluster members instances)]
    ∧ outErr (Reconcile r)
      = (updateErr ← StatusUpdate r;
         Some (WrapErrorForObject "Update Status" (Cluster.Name cluster) updateErr)).
Proof.
  intros r cluster members instances Hget Hs Hp Hne.
  apply statusChanged_true in Hne.
  split.
  - by rewrite (Reconcile_actions _ _ _ _ Hget Hs Hp), Hne.
  - rewrite (Reconcile_observed _ _ _ _ Hget Hs Hp), Hne.
    unfold deferredStatusUpdate. rewrite Hne.
    destruct (projected_frame cluster members instances) as (<- & _).
    by destruct (StatusUpdate r).
Qed.

Lemma status_change_stops_cycle_witness :
  let cluster := exCluster 3 (exStatus (Some "id") 0 0 0 false) in
  let members :=
    [exServer "c-0" true false (Some "id") None; exServer "c-1" true false (Some "id") None] in
  let instances := [Pod.mk "c-0" "ns" true] in
  let r := exClient cluster members instances in
  Cluster.Status (projected cluster members instances)
  = exStatus (Some "id") 1 2 1 true
  ∧ outActions (Reconcile r) = [ActStatusUpdate (projected cluster members instances)]
  ∧ outErr (Reconcile r) = None.
Proof.
  intros cluster members instances r.
  split; [reflexivity|].
  apply (status_change_stops_cycle r cluster members instances);
    [reflexivity | reflexivity | reflexivity | discriminate].
Defined.

(** ** Scale-up: names and peers *)

(** C7. The name [nextServerName] synthesizes is the first name of the
    sequence <cluster>-0, <cluster>-1, ... that no observed member carries:
    it is <cluster>-k, no member is named <cluster>-k, and every <cluster>-j
    with j < k names an observed member.  With members c-0 and c-2 of the
    cluster c the name is c-1. *)
Theorem nextServerName_first_unused :
  ∀ (cluster : Cluster.t) (servers : list Server.t),
    (∃ k : nat,
        nextServerName cluster servers = serverNameAt cluster k
        ∧ (serverNameAt cluster k ∉ Server.Name <$> servers)
        ∧ ∀ j : nat, (j < k)%nat → serverNameAt cluster j ∈ (Server.Name <$> servers))
    ∧ serverNameAt cluster 0 = (Cluster.Name cluster +:+ "-0")
    ∧ nextServerName (exCluster 3 (exStatus None 0 0 0 false))
        [exServer "c-0" true false None None; exServer "c-2" true false None None]
      = "c-1".
Proof.
  intros cluster servers. split; [|split; [done | by vm_compute]].
  destruct (nextServerName_probe_first _ _ _ _ _ (nextServerName_probe_eq cluster servers))
    as (k & _ & Hname & Hfree & Hused).
  exists k. repeat split; [done | by apply findServer_None |].
  intros j Hj.
  destruct (decide (serverNameAt cluster j ∈ Server.Name <$> servers)) as [|Hn]; [done|].
  apply findServer_None in Hn. destruct (Hused j) as [s Hs]; [lia | congruence].
Qed.

(** C8. The initPeers [serverApply] writes are the raft addresses, in list
    order, of exactly the members passed to it that have another name than the
    applied member and report an address.  In a cycle every call on a member is
    made on a name that no observed member carries, with the addresses of all
    observed members that report one: the cycle never re-applies an observed
    member, so a member created in an earlier cycle keeps the peers captured
    when it was created. *)
Theorem initPeers_captured_at_creation :
  (∀ (cluster : Cluster.t) (server : Server.t) (allServers : list Server.t),
      ServerSpec.InitPeers (Server.Spec (serverApply cluster server allServers))
      = omap (λ peer : Server.t, ServerStatus.RaftAddress (Server.Status peer))
             (filter (λ peer : Server.t, Server.Name peer ≠ Server.Name server) allServers))
  ∧ (∀ (r : Client) (cluster : Cluster.t) (members : list Server.t)
       (instances : list Pod.t) (a : action) (server : Server.t),
      Get r = GetFound cluster →
      ListServers r = Ok members →
      ListPods r = Ok instances →
      a ∈ outActions (Reconcile r) →
      memberOfCall a = Some server →
      (∀ member : Server.t, member ∈ members → Server.Name member ≠ Server.Name server)
      ∧ ServerSpec.InitPeers (Server.Spec server)
        = omap (λ peer : Server.t, ServerStatus.RaftAddress (Server.Status peer))
               (observedServers members)).
Proof.
  split.
  - intros cluster server allServers. simpl. apply serverApply_peers_omap.
  - intros r cluster members instances a server Hget Hs Hp Hin Hcall.
    rewrite (Reconcile_member_call r cluster members instances Hget Hs Hp a server Hin Hcall).
    assert (Hfresh : nextServerName cluster (observedServers members)
                     ∉ Server.Name <$> observedServers members)
      by apply nextServerName_fresh.
    rewrite newMember_name. split.
    + intros member Hmem Heq. apply Hfresh.
      rewrite observedServers_names, <- Heq. by apply list_elem_of_fmap_2.
    + unfold newMember. simpl. rewrite serverApply_peers_omap. simpl.
      rewrite nextServerName_projected. by rewrite filter_other_names.
Qed.

Lemma initPeers_captured_at_creation_witness :
  let cluster := exCluster 3 (exStatus (Some "id") 0 2 1 false) in
  let members :=
    [exServer "c-0" true false (Some "id") (Some "tcp:c-0");
     exServer "c-1" true false (Some "id") None] in
  let r := exClient cluster members [] in
  ServerSpec.InitPeers (Server.Spec (serverApply cluster (serverShell cluster "c-1") members))
  = ["tcp:c-0"]
  ∧ Server.Name <$> omap createdMember (outActions (Reconcile r)) = ["c-2"]
  ∧ ∀ (a : action) (server : Server.t),
      a ∈ outActions (Reconcile r) →
      memberOfCall a = Some server →
      (∀ member : Server.t, member ∈ members → Server.Name member ≠ Server.Name server)
      ∧ ServerSpec.InitPeers (Server.Spec server) = ["tcp:c-0"].
Proof.
  intros cluster members r.
  destruct initPeers_captured_at_creation as [Hpeers Hcycle].
  split; [rewrite Hpeers; reflexivity|]. split; [reflexivity|].
  intros a server Hin Hcall.
  destruct (Hcycle r cluster members [] a server eq_refl eq_refl eq_refl Hin Hcall)
    as [Hother Hinit].
  split; [exact Hother | rewrite Hinit; reflexivity].
Defined.

(** ** Failures of the observation *)

(** C9. When listing the members fails, or listing the instances fails, the
    cycle returns that error (wrapped with the name of the cluster) and acts on
    nothing: the only call it can make is the save of the status with the
    Failed condition unset, so no member is created or updated and no instance
    is created, replaced or deleted. *)
Theorem list_failure_aborts :
  ∀ (r : Client) (cluster : Cluster.t) (e : error),
    Get r = GetFound cluster →
    ListServers r = Err e
    ∨ ((∃ members : list Server.t, ListServers r = Ok members) ∧ ListPods r = Err e) →
    outErr (Reconcile r)
    = Some (Errorf ((if ListServers r is Err _
                     then "Error listing servers for cluster "
                     else "Error listing server pods for cluster ")
                    +:+ Cluster.Name cluster) e)
    ∧ ∀ a : action,
        a ∈ outActions (Reconcile r) → a = ActStatusUpdate (util.UnsetFailed cluster).
Proof.
  intros r cluster e Hget Hlist.
  assert (Hbody :
    reconcileBody r cluster (Cluster.Status cluster)
    = (util.UnsetFailed cluster, [],
       Some (Errorf ((if ListServers r is Err _
                      then "Error listing servers for cluster "
                      else "Error listing server pods for cluster ")
                     +:+ Cluster.Name cluster) e))).
  { unfold reconcileBody, getServers, getServerPods.
    destruct Hlist as [Hs | [[members Hs] Hp]]; rewrite Hs; [done|]. by rewrite Hp. }
  unfold Reconcile. rewrite Hget, Hbody. split.
  - apply deferredStatusUpdate_err.
  - rewrite deferredStatusUpdate_actions. simpl.
    destruct (statusChanged _ _); [by intros a ->%list_elem_of_singleton|].
    by intros a ?%elem_of_nil.
Qed.

Lemma list_failure_aborts_witness :
  let cluster :=
    Cluster.mk "c" "ns" (ClusterSpec.mk 3 "NB" "1G" None)
      (ClusterStatus.mk (Some "id") 3 3 2
         (ClusterConditions.mk true (Some (OVSDBClusterBootstrap, "old")))) in
  let r :=
    mkClient (GetFound cluster) (Ok [exServer "c-0" true false (Some "id") None])
             (Err (ClientError "timeout")) None
             (λ _, Ok OperationResultCreated) (λ _, None) (λ _, Ok OperationResultUpdated) in
  outErr (Reconcile r)
  = Some (Errorf "Error listing server pods for cluster c" (ClientError "timeout"))
  ∧ outActions (Reconcile r) = [ActStatusUpdate (util.UnsetFailed cluster)]
  ∧ ∀ a : action,
      a ∈ outActions (Reconcile r) → a = ActStatusUpdate (util.UnsetFailed cluster).
Proof.
  intros cluster r.
  destruct (list_failure_aborts r cluster (ClientError "timeout") eq_refl) as [Herr Hacts].
  { right. split; [by eexists | reflexivity]. }
  split; [exact Herr|]. split; [reflexivity | exact Hacts].
Defined.

(** ** Scale-up repeats one name *)

(** C10. Every iteration of the scale-up loop names its member against the
    member list observed at the start of the cycle, which the loop never
    extends: every call the cycle makes on a member is made on the same
    member, named [nextServerName] of the observed list, so at most one new
    member name is created per cycle however many members are missing.  With
    replicas 4 and the single member c-0 the three iterations all create
    c-1. *)
Theorem scale_up_repeats_one_name :
  ∀ (r : Client) (cluster : Cluster.t) (members : list Server.t) (instances : list Pod.t),
    Get r = GetFound cluster →
    ListServers r = Ok members →
    ListPods r = Ok instances →
    (∀ (a : action) (server : Server.t),
        a ∈ outActions (Reconcile r) →
        memberOfCall a = Some server →
        Server.Name server = nextServerName cluster (observedServers members))
    ∧ (∀ a b : action,
        a ∈ outActions (Reconcile r) → b ∈ outActions (Reconcile r) →
        is_Some (memberOfCall a) → is_Some (memberOfCall b) →
        memberOfCall a = memberOfCall b)
    ∧ (∃ k : nat,
        Server.Name <$> omap createdMember (outActions (Reconcile r))
        = replicate k (nextServerName cluster (observedServers members))).
Proof.
  intros r cluster members instances Hget Hs Hp.
  pose proof (Reconcile_member_call r cluster members instances Hget Hs Hp) as Hmem.
  split; [|split].
  - intros a server Hin Hcall.
    rewrite (Hmem a server Hin Hcall). apply newMember_name.
  - intros a b Ha Hb [sa Hsa] [sb Hsb].
    by rewrite Hsa, Hsb, (Hmem a sa Ha Hsa), (Hmem b sb Hb Hsb).
  - destruct (Reconcile_member_calls r cluster members instances Hget Hs Hp)
      as (k & podCalls & Hpods & ->).
    exists k. rewrite omap_app, scaleUpCalls_created, (omap_createdMember_nil _ Hpods).
    by rewrite app_nil_r, fmap_replicate, newMember_name.
Qed.

Lemma scale_up_repeats_one_name_witness :
  let cluster := exCluster 4 (exStatus (Some "id") 0 1 1 false) in
  let members := [exServer "c-0" true false (Some "id") (Some "tcp:c-0")] in
  let r := exClient cluster members [] in
  nextServerName cluster (observedServers members) = "c-1"
  ∧ Server.Name <$> omap createdMember (outActions (Reconcile r)) = ["c-1"; "c-1"; "c-1"]
  ∧ ∀ (a : action) (server : Server.t),
      a ∈ outActions (Reconcile r) → memberOfCall a = Some server →
      Server.Name server = "c-1".
Proof.
  intros cluster members r.
  destruct (scale_up_repeats_one_name r cluster members [] eq_refl eq_refl eq_refl)
    as (Hall & _ & _).
  split; [reflexivity|]. split; [reflexivity | exact Hall].
Defined.

(** * Further properties of the code *)

(** ** Observation: the sorted slices *)

Lemma string_leb_iff (a b : string) :
  String.leb a b = true ↔ a = b ∨ OrderedTypeEx.String_as_OT.lt a b.
Proof.
  unfold String.leb.
  destruct (String.compare a b) eqn:Hcmp.
  - apply OrderedTypeEx.String_as_OT.cmp_eq in Hcmp. by split; [left|].
  - apply OrderedTypeEx.String_as_OT.cmp_lt in Hcmp. by split; [right|].
  - split; [done|]. intros [->|Hlt].
    + pose proof (proj2 (OrderedTypeEx.String_as_OT.cmp_eq b b) eq_refl) as Heq.
      unfold OrderedTypeEx.String_as_OT.cmp in Heq. congruence.
    + apply OrderedTypeEx.String_as_OT.cmp_lt in Hlt.
      unfold OrderedTypeEx.String_as_OT.cmp in Hlt. congruence.
Qed.

Lemma string_leb_trans (a b c : string) :
  String.leb a b = true → String.leb b c = true → String.leb a c = true.
Proof.
  rewrite !string_leb_iff. intros [->|Hab] [->|Hbc]; [by left | by right | by right |].
  right. by apply (OrderedTypeEx.String_as_OT.lt_trans a b c).
Qed.

Global Instance serverNameLe_total : Total serverNameLe.
Proof. intros a b. apply String.leb_total. Qed.

Global Instance serverNameLe_trans : Transitive serverNameLe.
Proof. intros a b c. apply string_leb_trans. Qed.

Global Instance podNameLe_total : Total podNameLe.
Proof. intros a b. apply String.leb_total. Qed.

Global Instance podNameLe_trans : Transitive podNameLe.
Proof. intros a b c. apply string_leb_trans. Qed.

Lemma NoDup_fmap_inj_on {A B : Type} (f : A → B) (l : list A) (x y : A) :
  NoDup (f <$> l) → x ∈ l → y ∈ l → f x = f y → x = y.
Proof.
  induction l as [|z l IH]; simpl; [by intros _ ?%elem_of_nil|].
  rewrite NoDup_cons. intros [Hz Hnd] Hx Hy Hxy.
  apply elem_of_cons in Hx as [->|Hx]; apply elem_of_cons in Hy as [->|Hy].
  - done.
  - destruct Hz. rewrite Hxy. by apply list_elem_of_fmap_2.
  - destruct Hz. rewrite <- Hxy. by apply list_elem_of_fmap_2.
  - by apply IH.
Qed.

(** Two slices sorted by a key that is unique in them, with the same
    elements, are the same slice. *)
Lemma sorted_by_unique_name {A : Type} (name : A → string) (l1 l2 : list A) :
  StronglySorted (λ a b, String.leb (name a) (name b) = true) l1 →
  StronglySorted (λ a b, String.leb (name a) (name b) = true) l2 →
  l1 ≡ₚ l2 →
  NoDup (name <$> l1) →
  l1 = l2.
Proof.
  intros Hs1 Hs2 Hperm Hnd.
  apply (StronglySorted_unique_strong (λ a b, String.leb (name a) (name b) = true) l1 l2);
    [|done..].
  intros x1 x2 Hx1 Hx2 H12 H21.
  apply (NoDup_fmap_inj_on name l1); [done | done | by rewrite Hperm |].
  by apply String.leb_antisym.
Qed.

(** X1. [getServers] answers the listed members sorted by name: the slice
    has the same members as the listing and is in ascending name order.  When
    the names of the listing are pairwise different, the slice does not depend
    on the order in which the API server listed the members. *)
Theorem getServers_sorted_by_name :
  ∀ (r r' : Client) (cluster : Cluster.t) (items items' : list Server.t),
    ListServers r = Ok items →
    (∃ servers : list Server.t,
        getServers r cluster = Ok servers
        ∧ servers ≡ₚ items
        ∧ StronglySorted serverNameLe servers)
    ∧ (ListServers r' = Ok items' →
       items' ≡ₚ items →
       NoDup (Server.Name <$> items) →
       getServers r' cluster = getServers r cluster).
Proof.
  intros r r' cluster items items' Hlist. unfold getServers. rewrite Hlist. split.
  - exists (merge_sort serverNameLe items).
    split; [done|]. split; [apply merge_sort_Permutation|].
    apply (StronglySorted_merge_sort _).
  - intros Hlist' Hperm Hnd. rewrite Hlist'. f_equal.
    apply (sorted_by_unique_name Server.Name).
    + apply (StronglySorted_merge_sort serverNameLe).
    + apply (StronglySorted_merge_sort serverNameLe).
    + by rewrite !merge_sort_Permutation.
    + by rewrite merge_sort_Permutation, Hperm.
Qed.

Lemma getServers_sorted_by_name_witness :
  let a := exServer "c-0" true false None None in
  let b := exServer "c-1" true false None None in
  let c := exServer "c-10" false false None None in
  let cluster := exCluster 3 (exStatus None 0 0 0 false) in
  getServers (exClient cluster [c; a; b] []) cluster = Ok [a; b; c]
  ∧ getServers (exClient cluster [b; c; a] []) cluster
    = getServers (exClient cluster [c; a; b] []) cluster.
Proof.
  intros a b c cluster.
  destruct (getServers_sorted_by_name (exClient cluster [c; a; b] [])
              (exClient cluster [b; c; a] []) cluster [c; a; b] [b; c; a] eq_refl)
    as [_ Hsame].
  split; [reflexivity|].
  apply Hsame; [reflexivity | |].
  - apply (Permutation_cons_append [c; a] b).
  - apply (bool_decide_unpack (NoDup (Server.Name <$> [c; a; b]))). vm_compute. exact I.
Defined.

(** X2. [getServerPods] answers the listed instances sorted by name: the
    slice has the same instances as the listing and is in ascending name
    order.  When the names of the listing are pairwise different, the slice
    does not depend on the order in which the API server listed them. *)
Theorem getServerPods_sorted_by_name :
  ∀ (r r' : Client) (cluster : Cluster.t) (items items' : list Pod.t),
    ListPods r = Ok items →
    (∃ serverPods : list Pod.t,
        getServerPods r cluster = Ok serverPods
        ∧ serverPods ≡ₚ items
        ∧ StronglySorted podNameLe serverPods)
    ∧ (ListPods r' = Ok items' →
       items' ≡ₚ items →
       NoDup (Pod.Name <$> items) →
       getServerPods r' cluster = getServerPods r cluster).
Proof.
  intros r r' cluster items items' Hlist. unfold getServerPods. rewrite Hlist. split.
  - exists (merge_sort podNameLe items).
    split; [done|]. split; [apply merge_sort_Permutation|].
    apply (StronglySorted_merge_sort _).
  - intros Hlist' Hperm Hnd. rewrite Hlist'. f_equal.
    apply (sorted_by_unique_name Pod.Name).
    + apply (StronglySorted_merge_sort podNameLe).
    + apply (StronglySorted_merge_sort podNameLe).
    + by rewrite !merge_sort_Permutation.
    + by rewrite merge_sort_Permutation, Hperm.
Qed.

Lemma getServerPods_sorted_by_name_witness :
  let a := Pod.mk "c-0" "ns" true in
  let b := Pod.mk "c-1" "ns" false in
  let cluster := exCluster 3 (exStatus None 0 0 0 false) in
  getServerPods (exClient cluster [] [b; a]) cluster = Ok [a; b]
  ∧ getServerPods (exClient cluster [] [a; b]) cluster
    = getServerPods (exClient cluster [] [b; a]) cluster.
Proof.
  intros a b cluster.
  destruct (getServerPods_sorted_by_name (exClient cluster [] [b; a])
              (exClient cluster [] [a; b]) cluster [b; a] [a; b] eq_refl)
    as [_ Hsame].
  split; [reflexivity|].
  apply Hsame; [reflexivity | apply perm_swap |].
  apply (bool_decide_unpack (NoDup (Pod.Name <$> [b; a]))). vm_compute. exact I.
Defined.

(** ** Lookups by name *)

Lemma findServer_first servers name server :
  findServer servers name = Some server ↔
  ∃ before after : list Server.t,
    servers = before ++ server :: after
    ∧ Server.Name server = name
    ∧ ∀ s, s ∈ before → Server.Name s ≠ name.
Proof.
  induction servers as [|s rest IH]; simpl.
  - split; [done|]. intros (before & after & Heq & _). by destruct before.
  - case_bool_decide as Hn.
    + split.
      * intros [= <-]. exists [], rest. split; [done|]. split; [done|].
        by intros ? ?%elem_of_nil.
      * intros (before & after & Heq & Hname & Hbefore).
        destruct before as [|b before]; simpl in Heq; injection Heq as -> ->; [done|].
        destruct (Hbefore b); [left | done].
    + rewrite IH. split.
      * intros (before & after & -> & Hname & Hbefore).
        exists (s :: before), after. split; [done|]. split; [done|].
        intros p [->|Hp]%elem_of_cons; [done | by apply Hbefore].
      * intros (before & after & Heq & Hname & Hbefore).
        destruct before as [|b before]; simpl in Heq; injection Heq as -> ->; [done|].
        exists before, after. split; [done|]. split; [done|].
        intros p Hp. apply Hbefore. by right.
Qed.

Lemma findPod_first serverPods name pod :
  findPod serverPods name = Some pod ↔
  ∃ before after : list Pod.t,
    serverPods = before ++ pod :: after
    ∧ Pod.Name pod = name
    ∧ ∀ p, p ∈ before → Pod.Name p ≠ name.
Proof.
  induction serverPods as [|s rest IH]; simpl.
  - split; [done|]. intros (before & after & Heq & _). by destruct before.
  - case_bool_decide as Hn.
    + split.
      * intros [= <-]. exists [], rest. split; [done|]. split; [done|].
        by intros ? ?%elem_of_nil.
      * intros (before & after & Heq & Hname & Hbefore).
        destruct before as [|b before]; simpl in Heq; injection Heq as -> ->; [done|].
        destruct (Hbefore b); [left | done].
    + rewrite IH. split.
      * intros (before & after & -> & Hname & Hbefore).
        exists (s :: before), after. split; [done|]. split; [done|].
        intros p [->|Hp]%elem_of_cons; [done | by apply Hbefore].
      * intros (before & after & Heq & Hname & Hbefore).
        destruct before as [|b before]; simpl in Heq; injection Heq as -> ->; [done|].
        exists before, after. split; [done|]. split; [done|].
        intros p Hp. apply Hbefore. by right.
Qed.

Lemma findPod_None serverPods name :
  findPod serverPods name = None ↔ ∀ p, p ∈ serverPods → Pod.Name p ≠ name.
Proof.
  induction serverPods as [|s rest IH]; simpl.
  - split; [by intros _ ? ?%elem_of_nil | done].
  - case_bool_decide as Hn.
    + split; [done|]. intros Hall. destruct (Hall s); [left | done].
    + rewrite IH. split.
      * intros Hrest p [->|Hp]%elem_of_cons; [done | by apply Hrest].
      * intros Hall p Hp. apply Hall. by right.
Qed.

(** X3. The lookups [findServer] and [findPod] answer the first element of
    the slice that carries the name, and nil exactly when no element carries
    it. *)
Theorem find_by_name_first_match :
  ∀ (servers : list Server.t) (serverPods : list Pod.t) (name : string),
    (findServer servers name = None ↔ ∀ s, s ∈ servers → Server.Name s ≠ name)
    ∧ (∀ server : Server.t,
          findServer servers name = Some server ↔
          ∃ before after : list Server.t,
            servers = before ++ server :: after
            ∧ Server.Name server = name
            ∧ ∀ s, s ∈ before → Server.Name s ≠ name)
    ∧ (findPod serverPods name = None ↔ ∀ p, p ∈ serverPods → Pod.Name p ≠ name)
    ∧ (∀ pod : Pod.t,
          findPod serverPods name = Some pod ↔
          ∃ before after : list Pod.t,
            serverPods = before ++ pod :: after
            ∧ Pod.Name pod = name
            ∧ ∀ p, p ∈ before → Pod.Name p ≠ name).
Proof.
  intros servers serverPods name. split; [|split; [|split]].
  - rewrite findServer_None. split.
    + intros Hnot s Hs Heq. apply Hnot. rewrite <- Heq. by apply list_elem_of_fmap_2.
    + intros Hall [s [-> Hs]]%list_elem_of_fmap. by apply (Hall s).
  - intros server. apply findServer_first.
  - apply findPod_None.
  - intros pod. apply findPod_first.
Qed.

(** ** Naming: the index of the new name *)

Lemma names_found_bound cluster servers k :
  (∀ j : nat, (j < k)%nat → serverNameAt cluster j ∈ Server.Name <$> servers) →
  (k ≤ length servers)%nat.
Proof.
  intros Hused.
  assert (Hnd : NoDup (serverNameAt cluster <$> seq 0 k)).
  { apply (NoDup_fmap_2 _). apply NoDup_seq. }
  assert (Hsub : ∀ x, x ∈ serverNameAt cluster <$> seq 0 k → x ∈ Server.Name <$> servers).
  { intros x [j [-> Hj]]%list_elem_of_fmap. apply elem_of_seq in Hj. apply Hused. lia. }
  pose proof (submseteq_length _ _ (NoDup_submseteq _ _ Hnd Hsub)) as Hlen.
  by rewrite !length_fmap, length_seq in Hlen.
Qed.

Lemma nextServerName_least cluster servers :
  ∃ k : nat,
    nextServerName cluster servers = serverNameAt cluster k
    ∧ (serverNameAt cluster k ∉ Server.Name <$> servers)
    ∧ ∀ j : nat, (j < k)%nat → serverNameAt cluster j ∈ Server.Name <$> servers.
Proof.
  destruct (nextServerName_probe_first _ _ _ _ _ (nextServerName_probe_eq cluster servers))
    as (k & _ & Hname & Hfree & Hused).
  exists k. split; [done|]. split; [by apply findServer_None|].
  intros j Hj.
  destruct (decide (serverNameAt cluster j ∈ Server.Name <$> servers)) as [|Hn]; [done|].
  apply findServer_None in Hn. destruct (Hused j) as [s Hs]; [lia | congruence].
Qed.

(** X4. The index of the name [nextServerName] synthesizes is at most the
    number of observed members, and when the members carry exactly the names
    <cluster>-0 to <cluster>-(n-1) the new name is <cluster>-n. *)
Theorem nextServerName_index_bounded :
  ∀ (cluster : Cluster.t) (servers : list Server.t),
    (∃ k : nat,
        (k ≤ length servers)%nat
        ∧ nextServerName cluster servers = serverNameAt cluster k)
    ∧ (∀ n : nat,
          Server.Name <$> servers ≡ₚ serverNameAt cluster <$> seq 0 n →
          nextServerName cluster servers = serverNameAt cluster n).
Proof.
  intros cluster servers.
  destruct (nextServerName_least cluster servers) as (k & Hname & Hfree & Hused).
  split.
  - exists k. split; [by apply (names_found_bound cluster) | done].
  - intros n Hperm. rewrite Hname. f_equal.
    destruct (Nat.lt_trichotomy k n) as [Hlt|[->|Hgt]]; [|done|].
    + destruct Hfree. rewrite Hperm. apply list_elem_of_fmap_2, elem_of_seq. lia.
    + pose proof (Hused n Hgt) as Hin. rewrite Hperm in Hin.
      apply list_elem_of_fmap in Hin as (j & Hj & Hseq).
      apply serverNameAt_inj in Hj as <-. apply elem_of_seq in Hseq. lia.
Qed.

Lemma nextServerName_index_bounded_witness :
  let cluster := exCluster 3 (exStatus None 0 0 0 false) in
  let servers :=
    [exServer "c-1" true false None None; exServer "c-0" true false None None] in
  nextServerName cluster servers = "c-2"
  ∧ ∃ k : nat, (k ≤ 2)%nat ∧ nextServerName cluster servers = serverNameAt cluster k.
Proof.
  intros cluster servers.
  destruct (nextServerName_index_bounded cluster servers) as [Hbound Hnext].
  split; [|exact Hbound].
  rewrite (Hnext 2%nat); [reflexivity|]. apply perm_swap.
Defined.

(** ** [serverApply] *)

Lemma serverApply_peers_same_name server server' allServers initPeers :
  Server.Name server' = Server.Name server →
  serverApply_peers server' allServers initPeers
  = serverApply_peers server allServers initPeers.
Proof.
  intros Hname. revert initPeers.
  induction allServers as [|peer rest IH]; intros acc; simpl; [done|].
  by rewrite Hname, IH.
Qed.

(** X5. Applying [serverApply] a second time changes nothing.  It stamps
    the label ovsdb-cluster with the name of the cluster and keeps every other
    label, and it leaves the name, the namespace and the status of the member
    as they are. *)
Theorem serverApply_idempotent :
  ∀ (cluster : Cluster.t) (server : Server.t) (allServers : list Server.t),
    serverApply cluster (serverApply cluster server allServers) allServers
    = serverApply cluster server allServers
    ∧ Server.Labels (serverApply cluster server allServers) !! OVSDBClusterLabel
      = Some (Cluster.Name cluster)
    ∧ (∀ key : string,
          key ≠ OVSDBClusterLabel →
          Server.Labels (serverApply cluster server allServers) !! key
          = Server.Labels server !! key)
    ∧ Server.Name (serverApply cluster server allServers) = Server.Name server
    ∧ Server.Namespace (serverApply cluster server allServers) = Server.Namespace server
    ∧ Server.Status (serverApply cluster server allServers) = Server.Status server.
Proof.
  intros cluster server allServers. split; [|split; [|split]].
  - unfold serverApply at 1. simpl. unfold util.InitLabelMap.
    rewrite insert_insert_eq.
    rewrite (serverApply_peers_same_name server _ allServers []) by done.
    done.
  - simpl. apply lookup_insert_eq.
  - intros key Hkey. simpl. by apply lookup_insert_ne.
  - done.
Qed.

Lemma serverApply_idempotent_witness :
  let cluster := exCluster 3 (exStatus (Some "id") 0 0 0 false) in
  let server :=
    Server.mk "c-1" "ns" {[ "app" := "ovsdb-server" ]} emptyServerSpec
              (ServerStatus.mk true false (Some "id") (Some "tcp:c-1")) in
  let peers := [exServer "c-0" true false (Some "id") (Some "tcp:c-0"); server] in
  Server.Labels (serverApply cluster server peers) !! "app" = Some "ovsdb-server"
  ∧ Server.Labels (serverApply cluster server peers) !! "ovsdb-cluster" = Some "c"
  ∧ ServerSpec.InitPeers (Server.Spec (serverApply cluster server peers)) = ["tcp:c-0"]
  ∧ serverApply cluster (serverApply cluster server peers) peers
    = serverApply cluster server peers.
Proof.
  intros cluster server peers.
  destruct (serverApply_idempotent cluster server peers)
    as (Hidem & Hlabel & Hkeep & _).
  split; [rewrite Hkeep; [reflexivity | discriminate]|].
  split; [exact Hlabel|]. split; [reflexivity | exact Hidem].
Defined.

(** ** The ClusterID and the Failed condition after the projection *)

Lemma clusterIDLoop_clusterID servers c :
  clusterIDOf (clusterIDLoop servers c)
  = match clusterIDOf c with
    | Some id => Some id
    | None => firstMemberID servers
    end.
Proof.
  unfold firstMemberID. revert c. induction servers as [|s rest IH]; intros c.
  - simpl. by destruct (clusterIDOf c).
  - destruct (clusterIDOf c) as [id|] eqn:Hc.
    + by apply clusterIDLoop_clusterID_Some.
    + simpl. unfold clusterIDOf in Hc. rewrite Hc, IH.
      unfold clusterIDOf, memberIDOf. simpl.
      by destruct (ServerStatus.ClusterID (Server.Status s)).
Qed.

Lemma projected_clusterID cluster members instances :
  clusterIDOf (projected cluster members instances)
  = match clusterIDOf cluster with
    | Some id => Some id
    | None => firstMemberID (observedServers members)
    end.
Proof.
  unfold projected, projectStatus. rewrite clusterIDLoop_clusterID.
  unfold clusterIDOf at 1. rewrite failedLoop_ClusterID.
  by destruct (_ && _).
Qed.

(** The ClusterID loop leaves Failed alone when every member agrees with the
    ClusterID the cluster ends with. *)
Lemma clusterIDLoop_agree servers c :
  (∀ s id, s ∈ servers → memberIDOf s = Some id →
           clusterIDOf (clusterIDLoop servers c) = Some id) →
  failedCondition (clusterIDLoop servers c) = failedCondition c.
Proof.
  revert c. induction servers as [|s rest IH]; intros c Hall; [done|].
  simpl in Hall |- *.
  set (c1 := match ClusterStatus.ClusterID (Cluster.Status c) with
             | Some _ => _ | None => _ end) in *.
  rewrite IH by (intros p id Hp; apply Hall; by right).
  unfold c1 in *. clear c1.
  destruct (ClusterStatus.ClusterID (Cluster.Status c)) as [cid|] eqn:Hc; [|done].
  destruct (ServerStatus.ClusterID (Server.Status s)) as [sid|] eqn:Hs; [|done].
  case_bool_decide as Hne; [|done].
  specialize (Hall s sid ltac:(left) Hs).
  rewrite (clusterIDLoop_clusterID_Some rest _ cid) in Hall by done.
  congruence.
Qed.

Lemma clusterIDLoop_failed_kept servers c :
  is_Some (failedCondition c) → is_Some (failedCondition (clusterIDLoop servers c)).
Proof.
  revert c. induction servers as [|s rest IH]; intros c Hc; simpl; [done|].
  apply IH.
  destruct (ClusterStatus.ClusterID (Cluster.Status c)); [|done].
  destruct (ServerStatus.ClusterID (Server.Status s)); [|done].
  case_bool_decide; [by eexists | done].
Qed.

Lemma firstMemberID_Some servers s id :
  s ∈ servers → memberIDOf s = Some id → is_Some (firstMemberID servers).
Proof.
  unfold firstMemberID. intros Hin Hid.
  assert (Hmem : id ∈ omap memberIDOf servers) by (apply list_elem_of_omap; eauto).
  destruct (omap memberIDOf servers); [by apply elem_of_nil in Hmem | by eexists].
Qed.

(** X6. The ClusterID of the cluster is never overwritten once it is set.
    While it is null the cycle adopts the ClusterID of the first member, in
    name order, that reports one; adopting one changes the status, so that
    cycle saves the status and makes no other call. *)
Theorem clusterID_adopted_from_first_member :
  ∀ (r : Client) (cluster cluster' : Cluster.t) (members : list Server.t)
    (instances : list Pod.t),
    Get r = GetFound cluster →
    ListServers r = Ok members →
    ListPods r = Ok instances →
    outCluster (Reconcile r) = Some cluster' →
    (∀ id : string, clusterIDOf cluster = Some id → clusterIDOf cluster' = Some id)
    ∧ (clusterIDOf cluster = None →
       clusterIDOf cluster' = firstMemberID (observedServers members))
    ∧ (clusterIDOf cluster = None →
       is_Some (clusterIDOf cluster') →
       outActions (Reconcile r) = [ActStatusUpdate cluster']).
Proof.
  intros r cluster cluster' members instances Hget Hs Hp Hout.
  rewrite (Reconcile_outCluster _ _ _ _ Hget Hs Hp) in Hout. injection Hout as <-.
  pose proof (projected_clusterID cluster members instances) as Hid.
  split; [|split].
  - intros id Hc. by rewrite Hid, Hc.
  - intros Hc. by rewrite Hid, Hc.
  - intros Hc [id Hnew].
    rewrite (Reconcile_actions _ _ _ _ Hget Hs Hp).
    assert (Hch : statusChanged (projected cluster members instances)
                                (Cluster.Status cluster) = true).
    { apply statusChanged_true. intros Heq. unfold clusterIDOf in Hc, Hnew.
      rewrite Heq in Hnew. congruence. }
    by rewrite Hch.
Qed.

Lemma clusterID_adopted_from_first_member_witness :
  let cluster := exCluster 3 (exStatus None 0 0 0 false) in
  let members :=
    [exServer "c-1" true false (Some "id-b") None;
     exServer "c-0" true false (Some "id-a") None] in
  let r := exClient cluster members [] in
  ∃ cluster' : Cluster.t,
    outCluster (Reconcile r) = Some cluster'
    ∧ clusterIDOf cluster' = Some "id-a"
    ∧ outActions (Reconcile r) = [ActStatusUpdate cluster'].
Proof.
  intros cluster members r.
  exists (projected cluster members []).
  destruct (clusterID_adopted_from_first_member r cluster (projected cluster members [])
              members [] eq_refl eq_refl eq_refl eq_refl) as (_ & Hfirst & Hsave).
  split; [reflexivity|].
  split; [rewrite Hfirst; reflexivity|].
  apply Hsave; [reflexivity|]. rewrite Hfirst; [by eexists | reflexivity].
Defined.

Lemma projected_failed_base cluster members instances :
  ∃ base : Cluster.t,
    projected cluster members instances
    = clusterIDLoop (observedServers members) (failedLoop (observedServers members) base)
    ∧ failedCondition base = None.
Proof.
  unfold projected, projectStatus. eexists. split; [done|].
  by destruct (_ && _).
Qed.

(** X7. After a cycle whose observation succeeds the Failed condition is
    unset exactly when no member reports failed and every ClusterID a member
    reports is the ClusterID of the cluster: a failure recorded by an earlier
    cycle clears as soon as its cause is gone. *)
Theorem failed_condition_unset_iff :
  ∀ (r : Client) (cluster cluster' : Cluster.t) (members : list Server.t)
    (instances : list Pod.t),
    Get r = GetFound cluster →
    ListServers r = Ok members →
    ListPods r = Ok instances →
    outCluster (Reconcile r) = Some cluster' →
    (failedCondition cluster' = None
     ↔ (∀ m : Server.t, m ∈ members → util.IsFailed m = false)
       ∧ (∀ (m : Server.t) (id : string),
             m ∈ members → memberIDOf m = Some id → clusterIDOf cluster' = Some id)).
Proof.
  intros r cluster cluster' members instances Hget Hs Hp Hout.
  rewrite (Reconcile_outCluster _ _ _ _ Hget Hs Hp) in Hout. injection Hout as <-.
  destruct (projected_failed_base cluster members instances) as (base & -> & Hbase).
  set (servers := observedServers members).
  split.
  - intros Hnone. split.
    + intros m Hm. destruct (util.IsFailed m) eqn:Hf; [|done].
      destruct (failed_members_last servers) as (before & s & after & Heq & Hsf & Hafter).
      { exists m. split; [by apply observedServers_elem | done]. }
      destruct (clusterIDLoop_failed_kept servers (failedLoop servers base)) as [x Hx].
      { rewrite Heq, (failedLoop_last before s after base Hsf Hafter). by eexists. }
      congruence.
    + intros m id Hm Hid.
      apply (proj2 (observedServers_elem members m)) in Hm. fold servers in Hm.
      assert (Hsome : is_Some (clusterIDOf (clusterIDLoop servers (failedLoop servers base)))).
      { rewrite clusterIDLoop_clusterID.
        destruct (clusterIDOf (failedLoop servers base)); [by eexists|].
        by apply (firstMemberID_Some servers m id). }
      destruct Hsome as [fid Hfid]. rewrite Hfid. f_equal.
      destruct (decide (id = fid)) as [|Hne]; [done|].
      destruct (clusterIDLoop_inconsistent servers (failedLoop servers base) fid Hfid)
        as (s & sid & _ & _ & _ & Hfailed); [by exists m, id|].
      congruence.
  - intros [Hnofail Hagree].
    rewrite clusterIDLoop_agree.
    + rewrite failedLoop_none; [done|].
      intros s Hs'. apply Hnofail. by apply observedServers_elem.
    + intros s id Hs' Hid. apply (Hagree s id); [by apply observedServers_elem | done].
Qed.

Lemma failed_condition_unset_iff_witness :
  let cluster :=
    Cluster.mk "c" "ns" (ClusterSpec.mk 3 "NB" "1G" None)
      (ClusterStatus.mk (Some "id") 0 1 1
         (ClusterConditions.mk false (Some (OVSDBClusterBootstrap, "old")))) in
  let members := [exServer "c-0" true false (Some "id") None] in
  let r := exClient cluster members [] in
  failedCondition cluster = Some (OVSDBClusterBootstrap, "old")
  ∧ ∃ cluster' : Cluster.t,
      outCluster (Reconcile r) = Some cluster' ∧ failedCondition cluster' = None.
Proof.
  intros cluster members r. split; [reflexivity|].
  exists (projected cluster members []). split; [reflexivity|].
  apply (failed_condition_unset_iff r cluster (projected cluster members []) members []
           eq_refl eq_refl eq_refl eq_refl).
  split.
  - intros m Hm. apply elem_of_cons in Hm as [->|Hm]; [reflexivity|].
    by apply elem_of_nil in Hm.
  - intros m id Hm Hid. apply elem_of_cons in Hm as [->|Hm]; [|by apply elem_of_nil in Hm].
    injection Hid as <-. reflexivity.
Defined.

(** ** The deferred save of the status *)

Lemma scaleUpLoop_withStatusUpdate r answer cluster servers n i :
  scaleUpLoop (withStatusUpdate r answer) cluster servers n i
  = scaleUpLoop r cluster servers n i.
Proof.
  revert i. induction n as [|n IH]; intros i; simpl; [done|].
  destruct (CreateOrUpdate r i); [by rewrite IH | done].
Qed.

Lemma deletePodsLoop_withStatusUpdate r answer serverPods i :
  deletePodsLoop (withStatusUpdate r answer) serverPods i = deletePodsLoop r serverPods i.
Proof.
  revert i. induction serverPods as [|p rest IH]; intros i; simpl; [done|].
  destruct (Delete r i); [done | by rewrite IH].
Qed.

Lemma serverPodsLoop_withStatusUpdate r answer serverPods cs cq servers i n :
  serverPodsLoop (withStatusUpdate r answer) serverPods cs cq servers i n
  = serverPodsLoop r serverPods cs cq servers i n.
Proof.
  revert i n. induction servers as [|s rest IH]; intros i n; simpl; [done|].
  destruct (planServerPod serverPods cs cq n s); [apply IH|].
  destruct (CreateOrDelete r i); [by rewrite IH | done].
Qed.

Lemma reconcileBody_withStatusUpdate r answer cluster origStatus :
  reconcileBody (withStatusUpdate r answer) cluster origStatus
  = reconcileBody r cluster origStatus.
Proof.
  unfold reconcileBody, getServers, getServerPods, reconcileActions. simpl.
  destruct (ListServers r); [|done]. destruct (ListPods r); [|done].
  destruct (statusChanged _ _); [done|].
  rewrite scaleUpLoop_withStatusUpdate.
  by rewrite deletePodsLoop_withStatusUpdate, serverPodsLoop_withStatusUpdate.
Qed.

(** X8. A failing save of the status changes nothing of what the cycle
    does and never hides another error: the calls and the cluster at return
    are those of the same cycle with a save that succeeds, an error of that
    cycle is returned as it is, and a cycle that returns no error otherwise
    returns the error of the save, wrapped, exactly when its status changed. *)
Theorem status_save_failure_never_masks :
  ∀ (r : Client) (updateErr : error),
    StatusUpdate r = Some updateErr →
    outActions (Reconcile r) = outActions (Reconcile (withStatusUpdate r None))
    ∧ outCluster (Reconcile r) = outCluster (Reconcile (withStatusUpdate r None))
    ∧ (∀ e : error,
          outErr (Reconcile (withStatusUpdate r None)) = Some e →
          outErr (Reconcile r) = Some e)
    ∧ (∀ cluster cluster' : Cluster.t,
          outErr (Reconcile (withStatusUpdate r None)) = None →
          Get r = GetFound cluster →
          outCluster (Reconcile r) = Some cluster' →
          outErr (Reconcile r)
          = if statusChanged cluster' (Cluster.Status cluster)
            then Some (WrapErrorForObject "Update Status" (Cluster.Name cluster') updateErr)
            else None).
Proof.
  intros r updateErr Hsave. unfold Reconcile. simpl.
  destruct (Get r) as [cluster| |getErr];
    [|by repeat split; intros; simplify_eq..].
  rewrite reconcileBody_withStatusUpdate.
  destruct (reconcileBody r cluster (Cluster.Status cluster)) as [[c acts] err].
  unfold deferredStatusUpdate. simpl. rewrite Hsave.
  destruct (statusChanged c (Cluster.Status cluster)) eqn:Hch; simpl.
  - split; [done|]. split; [done|]. split.
    + intros e ->. done.
    + intros cl cl' -> [= <-] [= <-]. by rewrite Hch.
  - split; [done|]. split; [done|]. split; [done|].
    intros cl cl' -> [= <-] [= <-]. by rewrite Hch.
Qed.

Lemma status_save_failure_never_masks_witness :
  let cluster := exCluster 3 (exStatus None 0 0 0 false) in
  let members := [exServer "c-0" true false (Some "id") None] in
  let r :=
    mkClient (GetFound cluster) (Ok members) (Ok []) (Some (ClientError "conflict"))
             (λ _, Ok OperationResultCreated) (λ _, None) (λ _, Ok OperationResultUpdated) in
  let failing :=
    mkClient (GetFound cluster) (Ok members) (Err (ClientError "timeout"))
             (Some (ClientError "conflict"))
             (λ _, Ok OperationResultCreated) (λ _, None) (λ _, Ok OperationResultUpdated) in
  outErr (Reconcile r)
  = Some (WrapErrorForObject "Update Status" "c" (ClientError "conflict"))
  ∧ outActions (Reconcile r) = outActions (Reconcile (withStatusUpdate r None))
  ∧ outErr (Reconcile failing)
    = Some (Errorf "Error listing server pods for cluster c" (ClientError "timeout")).
Proof.
  intros cluster members r failing.
  destruct (status_save_failure_never_masks r (ClientError "conflict") eq_refl)
    as (Hacts & _ & _ & Hsave).
  destruct (status_save_failure_never_masks failing (ClientError "conflict") eq_refl)
    as (_ & _ & Hkeep & _).
  split.
  { rewrite (Hsave cluster (projected cluster members []) eq_refl eq_refl eq_refl).
    reflexivity. }
  split; [exact Hacts|]. apply Hkeep. reflexivity.
Defined.

(** ** The loops of the second half, call by call *)

Lemma scaleUpLoop_all_succeed r cluster servers n i :
  (∀ j : Z, succeeds (CreateOrUpdate r j)) →
  scaleUpLoop r cluster servers n i = (scaleUpCalls (newMember cluster servers) n, None).
Proof.
  intros Hok. revert i. induction n as [|n IH]; intros i; simpl; [done|].
  fold (newMember cluster servers).
  specialize (Hok i). destruct (CreateOrUpdate r i); [|done].
  by rewrite IH.
Qed.

Lemma scaleUpLoop_first_failure r cluster servers n i j e :
  (j < n)%nat →
  (∀ j' : nat, (j' < j)%nat → succeeds (CreateOrUpdate r (i + Z.of_nat j'))) →
  CreateOrUpdate r (i + Z.of_nat j) = Err e →
  scaleUpLoop r cluster servers n i
  = (scaleUpCalls (newMember cluster servers) (S j), Some e).
Proof.
  revert i j. induction n as [|n IH]; intros i j Hj Hbefore Hfail; [lia|].
  simpl. fold (newMember cluster servers).
  destruct j as [|j].
  - rewrite Z.add_0_r in Hfail. by rewrite Hfail.
  - pose proof (Hbefore 0%nat ltac:(lia)) as H0. rewrite Z.add_0_r in H0.
    destruct (CreateOrUpdate r i); [|done].
    rewrite (IH (i + 1) j); [done | lia | |].
    + intros j' Hj'. specialize (Hbefore (S j') ltac:(lia)).
      by replace (i + 1 + Z.of_nat j') with (i + Z.of_nat (S j')) by lia.
    + by replace (i + 1 + Z.of_nat j) with (i + Z.of_nat (S j)) by lia.
Qed.

Lemma deletePodsLoop_all r serverPods i :
  (∀ j : nat, Delete r j = None) →
  deletePodsLoop r serverPods i = (ActDelete <$> serverPods, None).
Proof.
  intros Hok. revert i. induction serverPods as [|p rest IH]; intros i; simpl; [done|].
  by rewrite Hok, IH.
Qed.

Lemma deletePodsLoop_first_failure r serverPods i j pod e :
  serverPods !! j = Some pod →
  (∀ j' : nat, (j' < j)%nat → Delete r (i + j')%nat = None) →
  Delete r (i + j)%nat = Some e →
  deletePodsLoop r serverPods i
  = (ActDelete <$> take (S j) serverPods,
     Some (WrapErrorForObject "Delete server pod" (Pod.Name pod) e)).
Proof.
  revert i j. induction serverPods as [|p rest IH]; intros i j Hpod Hbefore Hfail; [done|].
  simpl. destruct j as [|j].
  - injection Hpod as ->. rewrite Nat.add_0_r in Hfail. rewrite Hfail.
    by rewrite take_0.
  - pose proof (Hbefore 0%nat ltac:(lia)) as H0. rewrite Nat.add_0_r in H0. rewrite H0.
    rewrite (IH (S i) j); [done | done | |].
    + intros j' Hj'. specialize (Hbefore (S j') ltac:(lia)).
      by replace (S i + j')%nat with (i + S j')%nat by lia.
    + by replace (S i + j)%nat with (i + S j)%nat by lia.
Qed.

Lemma deletePodsLoop_targets r serverPods i a :
  a ∈ (deletePodsLoop r serverPods i).1 →
  ∃ pod : Pod.t, a = ActDelete pod ∧ pod ∈ serverPods.
Proof.
  revert i. induction serverPods as [|p rest IH]; intros i; simpl; [by intros ?%elem_of_nil|].
  destruct (Delete r i).
  - simpl. intros ->%list_elem_of_singleton. exists p. split; [done | left].
  - specialize (IH (S i)). destruct (deletePodsLoop r rest (S i)) as [acts err].
    simpl in *. intros [->|Hin]%elem_of_cons.
    + exists p. split; [done | left].
    + destruct (IH Hin) as (pod & -> & Hpod). exists pod. split; [done | by right].
Qed.

(** What [planServerPod] says about the instance it plans a call on. *)
Lemma planServerPod_apply serverPods cs cq n server pod existing :
  planServerPod serverPods cs cq n server = PlanApply pod existing →
  util.IsAvailable server = true
  ∧ (if existing then findPod serverPods (Server.Name server) = Some pod
     else findPod serverPods (Server.Name server) = None ∧ pod = dbServerShell server).
Proof.
  unfold planServerPod. destruct (util.IsAvailable server); simpl; [|done].
  destruct (findPod serverPods (Server.Name server)) as [p|].
  - destruct (_ && _); [done|]. by intros [= <- <-].
  - by intros [= <- <-].
Qed.

Lemma serverPodsLoop_targets r serverPods cs cq servers i n a :
  a ∈ (serverPodsLoop r serverPods cs cq servers i n).1.1 →
  ∃ (pod : Pod.t) (existing : bool) (answer : result OperationResult) (server : Server.t),
    a = ActCreateOrDelete pod existing answer
    ∧ server ∈ servers
    ∧ util.IsAvailable server = true
    ∧ (if existing then findPod serverPods (Server.Name server) = Some pod
       else findPod serverPods (Server.Name server) = None ∧ pod = dbServerShell server).
Proof.
  revert i n. induction servers as [|s rest IH]; intros i n; simpl;
    [by intros ?%elem_of_nil|].
  assert (Hrest : ∀ i n, a ∈ (serverPodsLoop r serverPods cs cq rest i n).1.1 →
    ∃ pod existing answer server,
      a = ActCreateOrDelete pod existing answer ∧ server ∈ s :: rest
      ∧ util.IsAvailable server = true
      ∧ (if existing then findPod serverPods (Server.Name server) = Some pod
         else findPod serverPods (Server.Name server) = None ∧ pod = dbServerShell server)).
  { intros i' n' Hin. destruct (IH _ _ Hin) as (pod & ex & ans & server & -> & Hs & Hrest).
    exists pod, ex, ans, server. split; [done|]. split; [by right | done]. }
  destruct (planServerPod serverPods cs cq n s) as [|pod existing] eqn:Hplan; [apply Hrest|].
  destruct (planServerPod_apply _ _ _ _ _ _ _ Hplan) as [Hav Hpod].
  assert (Hhere : ∀ answer,
    ∃ pod' existing' answer' server,
      ActCreateOrDelete pod existing answer = ActCreateOrDelete pod' existing' answer'
      ∧ server ∈ s :: rest ∧ util.IsAvailable server = true
      ∧ (if existing' then findPod serverPods (Server.Name server) = Some pod'
         else findPod serverPods (Server.Name server) = None ∧ pod' = dbServerShell server)).
  { intros answer. exists pod, existing, answer, s. split; [done|]. split; [left | done]. }
  destruct (CreateOrDelete r i) as [op|err].
  - match goal with
    | |- context [serverPodsLoop r serverPods cs cq rest (S i) ?m] =>
        specialize (Hrest (S i) m);
        destruct (serverPodsLoop r serverPods cs cq rest (S i) m) as [[acts err] fin]
    end.
    simpl in *. intros [->|Hin]%elem_of_cons; [apply Hhere | by apply Hrest].
  - simpl. intros ->%list_elem_of_singleton. apply Hhere.
Qed.

Lemma reconcileActions_unfold r cluster servers serverPods :
  reconcileActions r cluster servers serverPods
  = let scaleUp :=
      scaleUpLoop r cluster servers
        (Z.to_nat (targetServers cluster - Z.of_nat (length servers)))
        (Z.of_nat (length servers)) in
    let deleted := deletePodsLoop r serverPods 0 in
    let applied :=
      serverPodsLoop r serverPods (countAvailable servers 0)
        (quorumOf (countAvailable servers 0)) servers 0 (countReady serverPods 0) in
    match scaleUp.2 with
    | Some err => (scaleUp.1, Some err)
    | None =>
        if ClusterSpec.Replicas (Cluster.Spec cluster) =? 0
        then (scaleUp.1 ++ deleted.1, deleted.2)
        else (scaleUp.1 ++ applied.1.1, applied.1.2)
    end.
Proof.
  unfold reconcileActions. cbv zeta.
  destruct (scaleUpLoop _ _ _ _ _) as [acts [err|]]; simpl; [done|].
  destruct (_ =? 0).
  - by destruct (deletePodsLoop r serverPods 0).
  - by destruct (serverPodsLoop _ _ _ _ _ _ _) as [[??]?].
Qed.

(** The calls of the second half are calls on members and instances only. *)
Lemma reconcileActions_no_save r cluster servers serverPods a c :
  a ∈ (reconcileActions r cluster servers serverPods).1 → a ≠ ActStatusUpdate c.
Proof.
  rewrite reconcileActions_unfold. cbv zeta.
  destruct (scaleUpLoop_calls r cluster servers
              (Z.to_nat (targetServers cluster - Z.of_nat (length servers)))
              (Z.of_nat (length servers))) as (k' & _ & _ & Hacts & _).
  assert (Hscale : ∀ k'', a ∈ scaleUpCalls (newMember cluster servers) k'' →
                          a ≠ ActStatusUpdate c).
  { intros k'' Hin ->.
    unfold scaleUpCalls in Hin. induction k'' as [|k'' IH]; simpl in Hin;
      [by apply elem_of_nil in Hin|].
    apply elem_of_cons in Hin as [?|Hin]; [done|].
    apply elem_of_cons in Hin as [?|Hin]; [done | by apply IH]. }
  destruct (scaleUpLoop _ _ _ _ _) as [acts [err|]]; simpl in *; subst acts;
    [apply Hscale|].
  destruct (_ =? 0); simpl.
  - intros [Hin|Hin]%elem_of_app; [by apply (Hscale k')|].
    destruct (deletePodsLoop_targets _ _ _ _ Hin) as (pod & -> & _). done.
  - intros [Hin|Hin]%elem_of_app; [by apply (Hscale k')|].
    destruct (serverPodsLoop_targets _ _ _ _ _ _ _ _ Hin) as (pod & ex & ans & s & -> & _).
    done.
Qed.

Lemma reconcileBody_save_alone r cluster origStatus :
  let '(c, acts, err) := reconcileBody r cluster origStatus in
  (statusChanged c origStatus = true → acts = [])
  ∧ ∀ a c', a ∈ acts → a ≠ ActStatusUpdate c'.
Proof.
  unfold reconcileBody.
  destruct (getServers r _) as [servers|e]; [|by split; [|intros ?? ?%elem_of_nil]].
  destruct (getServerPods r _) as [pods|e]; [|by split; [|intros ?? ?%elem_of_nil]].
  destruct (statusChanged _ _) eqn:Hch; [by split; [|intros ?? ?%elem_of_nil]|].
  pose proof (reconcileActions_no_save r
                (projectStatus servers pods (util.UnsetFailed cluster)) servers pods) as Hno.
  destruct (reconcileActions _ _ _ _) as [acts err]. simpl in Hno.
  split; [by rewrite Hch | intros a c' Hin; by apply Hno].
Qed.

(** X9. The save of the status is never mixed with other calls: a cycle
    that saves the status makes no other call, the cluster it saves is the
    cluster it returns with, and its status differs from the one the cycle
    started from. *)
Theorem status_save_is_the_only_call :
  ∀ (r : Client) (saved : Cluster.t),
    ActStatusUpdate saved ∈ outActions (Reconcile r) →
    outActions (Reconcile r) = [ActStatusUpdate saved]
    ∧ outCluster (Reconcile r) = Some saved
    ∧ ∃ cluster : Cluster.t,
        Get r = GetFound cluster ∧ Cluster.Status saved ≠ Cluster.Status cluster.
Proof.
  intros r saved. unfold Reconcile.
  destruct (Get r) as [cluster| |getErr]; simpl; [|by intros ?%elem_of_nil..].
  pose proof (reconcileBody_save_alone r cluster (Cluster.Status cluster)) as Hbody.
  destruct (reconcileBody r cluster (Cluster.Status cluster)) as [[c acts] err].
  destruct Hbody as [Hnil Hno].
  rewrite deferredStatusUpdate_actions, deferredStatusUpdate_cluster.
  destruct (statusChanged c (Cluster.Status cluster)) eqn:Hch.
  - rewrite (Hnil eq_refl). simpl. intros [= ->]%list_elem_of_singleton.
    split; [done|]. split; [done|]. exists cluster. split; [done|].
    by apply statusChanged_true.
  - rewrite app_nil_r. intros Hin. by destruct (Hno _ saved Hin).
Qed.

Lemma status_save_is_the_only_call_witness :
  let cluster := exCluster 3 (exStatus None 0 0 0 false) in
  let members := [exServer "c-0" true false (Some "id") None] in
  let r := exClient cluster members [] in
  outActions (Reconcile r) = [ActStatusUpdate (projected cluster members [])]
  ∧ outCluster (Reconcile r) = Some (projected cluster members [])
  ∧ clusterIDOf (projected cluster members []) = Some "id".
Proof.
  intros cluster members r.
  destruct (status_save_is_the_only_call r (projected cluster members []))
    as (Hacts & Hout & _).
  { left. }
  split; [exact Hacts|]. split; [exact Hout | reflexivity].
Defined.

(** ** A cycle that reaches the second half *)

Lemma observedServers_length members : length (observedServers members) = length members.
Proof. unfold observedServers. by rewrite merge_sort_Permutation. Qed.

Lemma observedPods_elem instances pod : pod ∈ observedPods instances ↔ pod ∈ instances.
Proof. unfold observedPods. by rewrite merge_sort_Permutation. Qed.

Section StableCycle.
Context (r : Client) (cluster : Cluster.t).
Context (members : list Server.t) (instances : list Pod.t).
Hypothesis Hget : Get r = GetFound cluster.
Hypothesis Hservers : ListServers r = Ok members.
Hypothesis Hpods : ListPods r = Ok instances.
Hypothesis Hstable :
  Cluster.Status (projected cluster members instances) = Cluster.Status cluster.

Lemma Reconcile_stable :
  outActions (Reconcile r)
  = (reconcileActions r cluster (observedServers members) (observedPods instances)).1
  ∧ outErr (Reconcile r)
    = (reconcileActions r cluster (observedServers members) (observedPods instances)).2.
Proof.
  rewrite (Reconcile_observed r cluster members instances Hget Hservers Hpods).
  rewrite (proj2 (statusChanged_false _ _) Hstable).
  rewrite (projected_stable _ _ _ Hstable).
  destruct (reconcileActions _ _ _ _) as [acts err].
  unfold deferredStatusUpdate.
  assert (Hch : statusChanged cluster (Cluster.Status cluster) = false)
    by by apply statusChanged_false.
  by rewrite Hch.
Qed.

End StableCycle.

(** X10. In a cycle that reaches the scale-up and whose CreateOrUpdate
    calls all succeed, the number of CreateOrUpdate calls is the number of
    members missing from the target, and every call is on the same new member;
    when the observed members already reach the target the cycle makes no call
    on a member at all. *)
Theorem scale_up_call_count :
  ∀ (r : Client) (cluster : Cluster.t) (members : list Server.t) (instances : list Pod.t),
    Get r = GetFound cluster →
    ListServers r = Ok members →
    ListPods r = Ok instances →
    Cluster.Status (projected cluster members instances) = Cluster.Status cluster →
    (∀ i : Z, succeeds (CreateOrUpdate r i)) →
    omap createdMember (outActions (Reconcile r))
    = replicate (Z.to_nat (targetServers cluster - Z.of_nat (length members)))
                (newMember cluster (observedServers members))
    ∧ (targetServers cluster ≤ Z.of_nat (length members) →
       omap memberOfCall (outActions (Reconcile r)) = []).
Proof.
  intros r cluster members instances Hget Hs Hp Hstable Hok.
  destruct (Reconcile_stable r cluster members instances Hget Hs Hp Hstable) as [-> _].
  rewrite reconcileActions_unfold. cbv zeta.
  rewrite scaleUpLoop_all_succeed by done. simpl.
  rewrite observedServers_length.
  set (n := Z.to_nat (targetServers cluster - Z.of_nat (length members))).
  set (server := newMember cluster (observedServers members)).
  assert (Hpodcalls : ∀ acts : list action,
    (∀ a, a ∈ acts → memberOfCall a = None) →
    omap createdMember (scaleUpCalls server n ++ acts) = replicate n server
    ∧ (targetServers cluster ≤ Z.of_nat (length members) →
       omap memberOfCall (scaleUpCalls server n ++ acts) = [])).
  { intros acts Hnone. split.
    - by rewrite omap_app, scaleUpCalls_created, (omap_createdMember_nil _ Hnone), app_nil_r.
    - intros Hle. replace n with 0%nat by (unfold n; lia). simpl.
      induction acts as [|a acts IH]; [done|]. simpl.
      rewrite (Hnone a) by left. apply IH. intros b Hb. apply Hnone. by right. }
  destruct (_ =? 0); simpl; apply Hpodcalls.
  - intros a. apply deletePodsLoop_no_member.
  - intros a. apply serverPodsLoop_no_member.
Qed.

Lemma scale_up_call_count_witness :
  let cluster := exCluster 3 (exStatus (Some "id") 0 1 1 false) in
  let members := [exServer "c-0" true false (Some "id") None] in
  let full :=
    [exServer "c-0" false false (Some "id") None; exServer "c-1" false false (Some "id") None;
     exServer "c-2" false false (Some "id") None; exServer "c-3" false false (Some "id") None] in
  Server.Name <$> omap createdMember (outActions (Reconcile (exClient cluster members [])))
  = ["c-1"; "c-1"]
  ∧ omap memberOfCall
      (outActions (Reconcile (exClient (exCluster 3 (exStatus (Some "id") 0 0 0 false))
                                       full [])))
    = [].
Proof.
  intros cluster members full.
  destruct (scale_up_call_count (exClient cluster members []) cluster members []
              eq_refl eq_refl eq_refl eq_refl (λ _, I)) as [Hcount _].
  destruct (scale_up_call_count
              (exClient (exCluster 3 (exStatus (Some "id") 0 0 0 false)) full [])
              (exCluster 3 (exStatus (Some "id") 0 0 0 false)) full []
              eq_refl eq_refl eq_refl eq_refl (λ _, I)) as [_ Hnone].
  split; [rewrite Hcount; reflexivity|].
  apply Hnone. vm_compute. discriminate.
Defined.

Lemma scaleUpCalls_no_pod server k :
  omap podOfCall (scaleUpCalls server k) = []
  ∧ omap deletedPod (scaleUpCalls server k) = [].
Proof.
  unfold scaleUpCalls. induction k as [|k [IH1 IH2]]; simpl; [by split|].
  split; [exact IH1 | exact IH2].
Qed.

(** X11. When a CreateOrUpdate call of the scale-up fails, the cycle
    returns that error as it is and stops there: the calls it made are the
    scale-up calls up to the failing one, and no instance is created, replaced
    or deleted. *)
Theorem create_failure_aborts_cycle :
  ∀ (r : Client) (cluster : Cluster.t) (members : list Server.t) (instances : list Pod.t)
    (j : nat) (e : error),
    Get r = GetFound cluster →
    ListServers r = Ok members →
    ListPods r = Ok instances →
    Cluster.Status (projected cluster members instances) = Cluster.Status cluster →
    Z.of_nat (length members) + Z.of_nat j < targetServers cluster →
    (∀ j' : nat, (j' < j)%nat →
                 succeeds (CreateOrUpdate r (Z.of_nat (length members) + Z.of_nat j'))) →
    CreateOrUpdate r (Z.of_nat (length members) + Z.of_nat j) = Err e →
    outErr (Reconcile r) = Some e
    ∧ outActions (Reconcile r)
      = scaleUpCalls (newMember cluster (observedServers members)) (S j)
    ∧ omap podOfCall (outActions (Reconcile r)) = []
    ∧ omap deletedPod (outActions (Reconcile r)) = [].
Proof.
  intros r cluster members instances j e Hget Hs Hp Hstable Hj Hbefore Hfail.
  destruct (Reconcile_stable r cluster members instances Hget Hs Hp Hstable) as [-> ->].
  rewrite reconcileActions_unfold. cbv zeta. rewrite observedServers_length.
  rewrite (scaleUpLoop_first_failure r cluster (observedServers members) _ _ j e);
    [|lia | done | done].
  cbn [fst snd]. split; [done|]. split; [done|]. apply scaleUpCalls_no_pod.
Qed.

Lemma create_failure_aborts_cycle_witness :
  let cluster := exCluster 3 (exStatus (Some "id") 0 1 1 false) in
  let members := [exServer "c-0" true false (Some "id") None] in
  let r :=
    mkClient (GetFound cluster) (Ok members) (Ok []) None
             (λ i, if i =? 1 then Ok OperationResultCreated
                   else Err (ClientError "already exists"))
             (λ _, None) (λ _, Ok OperationResultCreated) in
  outErr (Reconcile r) = Some (ClientError "already exists")
  ∧ Server.Name <$> omap createdMember (outActions (Reconcile r)) = ["c-1"; "c-1"]
  ∧ omap podOfCall (outActions (Reconcile r)) = [].
Proof.
  intros cluster members r.
  destruct (create_failure_aborts_cycle r cluster members [] 1 (ClientError "already exists")
              eq_refl eq_refl eq_refl eq_refl) as (Herr & _ & Hpods & _).
  - vm_compute. reflexivity.
  - intros j' Hj'. assert (j' = 0%nat) as -> by lia. exact I.
  - reflexivity.
  - split; [exact Herr|]. split; [reflexivity | exact Hpods].
Defined.

(** ** Scale to zero *)

Lemma omap_deletedPod_fmap (pods : list Pod.t) :
  omap deletedPod (ActDelete <$> pods) = pods
  ∧ omap podOfCall (ActDelete <$> pods) = [].
Proof.
  induction pods as [|p rest [IH1 IH2]]; simpl; [by split|].
  split; [f_equal; exact IH1 | exact IH2].
Qed.

(** X12. With replicas zero, a cycle that reaches the second half deletes
    every observed instance, in name order and whether or not its member is
    Available, and never calls CreateOrDelete; it returns no error when every
    call succeeds. *)
Theorem scale_to_zero_deletes_all :
  ∀ (r : Client) (cluster : Cluster.t) (members : list Server.t) (instances : list Pod.t),
    Get r = GetFound cluster →
    ListServers r = Ok members →
    ListPods r = Ok instances →
    Cluster.Status (projected cluster members instances) = Cluster.Status cluster →
    ClusterSpec.Replicas (Cluster.Spec cluster) = 0 →
    (∀ i : Z, succeeds (CreateOrUpdate r i)) →
    (∀ i : nat, Delete r i = None) →
    omap deletedPod (outActions (Reconcile r)) = observedPods instances
    ∧ omap podOfCall (outActions (Reconcile r)) = []
    ∧ outErr (Reconcile r) = None.
Proof.
  intros r cluster members instances Hget Hs Hp Hstable Hzero Hcreate Hdelete.
  destruct (Reconcile_stable r cluster members instances Hget Hs Hp Hstable) as [-> ->].
  rewrite reconcileActions_unfold. cbv zeta.
  rewrite scaleUpLoop_all_succeed by done. cbn [fst snd].
  rewrite Hzero. simpl (0 =? 0). cbn iota.
  rewrite deletePodsLoop_all by done. cbn [fst snd].
  rewrite !omap_app.
  destruct (scaleUpCalls_no_pod (newMember cluster (observedServers members))
              (Z.to_nat (targetServers cluster
                         - Z.of_nat (length (observedServers members))))) as [-> ->].
  destruct (omap_deletedPod_fmap (observedPods instances)) as [-> ->].
  by repeat split.
Qed.

Lemma scale_to_zero_deletes_all_witness :
  let cluster := exCluster 0 (exStatus (Some "id") 2 2 1 true) in
  let members :=
    [exServer "c-0" true false (Some "id") None; exServer "c-1" true false (Some "id") None] in
  let instances := [Pod.mk "c-1" "ns" true; Pod.mk "c-0" "ns" true] in
  let r := exClient cluster members instances in
  omap deletedPod (outActions (Reconcile r))
  = [Pod.mk "c-0" "ns" true; Pod.mk "c-1" "ns" true]
  ∧ omap podOfCall (outActions (Reconcile r)) = []
  ∧ outErr (Reconcile r) = None.
Proof.
  intros cluster members instances r.
  destruct (scale_to_zero_deletes_all r cluster members instances
              eq_refl eq_refl eq_refl eq_refl eq_refl (λ _, I) (λ _, eq_refl))
    as (Hdel & Hnone & Herr).
  split; [rewrite Hdel; reflexivity|]. split; [exact Hnone | exact Herr].
Defined.

(** X13. With replicas zero, the first Delete that fails stops the cycle:
    the instances before it, and the failing one, are the only ones a Delete
    was called on, and the error returned is that of the failing call, wrapped
    with the name of its instance. *)
Theorem delete_failure_stops_deletion :
  ∀ (r : Client) (cluster : Cluster.t) (members : list Server.t) (instances : list Pod.t)
    (j : nat) (pod : Pod.t) (e : error),
    Get r = GetFound cluster →
    ListServers r = Ok members →
    ListPods r = Ok instances →
    Cluster.Status (projected cluster members instances) = Cluster.Status cluster →
    ClusterSpec.Replicas (Cluster.Spec cluster) = 0 →
    (∀ i : Z, succeeds (CreateOrUpdate r i)) →
    observedPods instances !! j = Some pod →
    (∀ j' : nat, (j' < j)%nat → Delete r j' = None) →
    Delete r j = Some e →
    omap deletedPod (outActions (Reconcile r)) = take (S j) (observedPods instances)
    ∧ outErr (Reconcile r)
      = Some (WrapErrorForObject "Delete server pod" (Pod.Name pod) e).
Proof.
  intros r cluster members instances j pod e
         Hget Hs Hp Hstable Hzero Hcreate Hpod Hbefore Hfail.
  destruct (Reconcile_stable r cluster members instances Hget Hs Hp Hstable) as [-> ->].
  rewrite reconcileActions_unfold. cbv zeta.
  rewrite scaleUpLoop_all_succeed by done. cbn [fst snd].
  rewrite Hzero. simpl (0 =? 0). cbn iota.
  rewrite (deletePodsLoop_first_failure r _ 0 j pod e) by done. cbn [fst snd].
  rewrite omap_app.
  destruct (scaleUpCalls_no_pod (newMember cluster (observedServers members))
              (Z.to_nat (targetServers cluster
                         - Z.of_nat (length (observedServers members))))) as [_ ->].
  split; [|done]. rewrite app_nil_l.
  apply (omap_deletedPod_fmap (take (S j) (observedPods instances))).
Qed.

Lemma delete_failure_stops_deletion_witness :
  let cluster := exCluster 0 (exStatus (Some "id") 3 1 1 true) in
  let members := [exServer "c-0" true false (Some "id") None] in
  let instances :=
    [Pod.mk "c-0" "ns" true; Pod.mk "c-1" "ns" true; Pod.mk "c-2" "ns" true] in
  let r :=
    mkClient (GetFound cluster) (Ok members) (Ok instances) None
             (λ _, Ok OperationResultCreated)
             (λ i, if decide (i = 1%nat) then Some (ClientError "forbidden") else None)
             (λ _, Ok OperationResultUpdated) in
  omap deletedPod (outActions (Reconcile r))
  = [Pod.mk "c-0" "ns" true; Pod.mk "c-1" "ns" true]
  ∧ outErr (Reconcile r)
    = Some (WrapErrorForObject "Delete server pod" "c-1" (ClientError "forbidden")).
Proof.
  intros cluster members instances r.
  destruct (delete_failure_stops_deletion r cluster members instances 1
              (Pod.mk "c-1" "ns" true) (ClientError "forbidden")
              eq_refl eq_refl eq_refl eq_refl eq_refl (λ _, I) eq_refl)
    as [Hdel Herr].
  - intros j' Hj'. assert (j' = 0%nat) as -> by lia. reflexivity.
  - reflexivity.
  - split; [rewrite Hdel; reflexivity | exact Herr].
Defined.

(** ** The calls on instances *)

Lemma scaleUpCalls_elem server k a :
  a ∈ scaleUpCalls server k → a = ActNeedsUpdate server ∨ a = ActCreateOrUpdate server.
Proof.
  unfold scaleUpCalls. induction k as [|k IH]; simpl; [by intros ?%elem_of_nil|].
  rewrite !elem_of_cons. intros [->|[->|Hin]]; [by left | by right | by apply IH].
Qed.

Lemma findPod_elem serverPods name pod :
  findPod serverPods name = Some pod → pod ∈ serverPods ∧ Pod.Name pod = name.
Proof.
  intros (before & after & -> & Hname & _)%findPod_first. split; [|done].
  apply elem_of_app. right. left.
Qed.

(** X14. A cycle calls CreateOrDelete only when replicas is not zero and
    only for a member that is Available, on the observed instance that carries
    the name of the member or, when no observed instance carries it, on a new
    instance named after the member.  It calls Delete only when replicas is
    zero, and only on observed instances. *)
Theorem instance_calls_are_well_targeted :
  ∀ (r : Client) (cluster : Cluster.t) (members : list Server.t) (instances : list Pod.t)
    (a : action),
    Get r = GetFound cluster →
    ListServers r = Ok members →
    ListPods r = Ok instances →
    a ∈ outActions (Reconcile r) →
    (∀ (pod : Pod.t) (existing : bool) (answer : result OperationResult),
        a = ActCreateOrDelete pod existing answer →
        ClusterSpec.Replicas (Cluster.Spec cluster) ≠ 0
        ∧ ∃ server : Server.t,
            server ∈ members
            ∧ util.IsAvailable server = true
            ∧ Pod.Name pod = Server.Name server
            ∧ (if existing then pod ∈ instances
               else pod = dbServerShell server
                    ∧ ∀ p : Pod.t, p ∈ instances → Pod.Name p ≠ Server.Name server))
    ∧ (∀ pod : Pod.t,
          a = ActDelete pod →
          ClusterSpec.Replicas (Cluster.Spec cluster) = 0 ∧ pod ∈ instances).
Proof.
  intros r cluster members instances a Hget Hs Hp.
  rewrite (Reconcile_actions _ _ _ _ Hget Hs Hp).
  destruct (statusChanged _ _); [by intros ->%list_elem_of_singleton|].
  rewrite reconcileActions_unfold. cbv zeta.
  destruct (projected_frame cluster members instances) as (_ & _ & ->).
  destruct (scaleUpLoop_calls r (projected cluster members instances)
              (observedServers members)
              (Z.to_nat (targetServers (projected cluster members instances)
                         - Z.of_nat (length (observedServers members))))
              (Z.of_nat (length (observedServers members)))) as (k & _ & _ & Hacts & _).
  match goal with
  | |- _ → ?G =>
      assert (Hscale : a ∈ scaleUpCalls (newMember (projected cluster members instances)
                                                   (observedServers members)) k → G)
        by (intros [-> | ->]%scaleUpCalls_elem; by split)
  end.
  destruct (scaleUpLoop _ _ _ _ _) as [acts [err|]]; simpl in Hacts; subst acts;
    cbn [fst snd]; [exact Hscale|].
  destruct (Z.eqb_spec (ClusterSpec.Replicas (Cluster.Spec cluster)) 0) as [Hzero|Hnz];
    cbn [fst snd].
  - intros [Hin|Hin]%elem_of_app; [by apply Hscale|].
    destruct (deletePodsLoop_targets _ _ _ _ Hin) as (pod & -> & Hpod).
    split; [done|]. intros ? [= <-]. split; [done | by apply observedPods_elem].
  - intros [Hin|Hin]%elem_of_app; [by apply Hscale|].
    destruct (serverPodsLoop_targets _ _ _ _ _ _ _ _ Hin)
      as (pod & ex & ans & server & -> & Hserver & Hav & Hfind).
    split; [|done]. intros ??? [= <- <- <-]. split; [done|].
    exists server. split; [by apply observedServers_elem|]. split; [done|].
    destruct ex.
    + apply findPod_elem in Hfind as [Hin' Hname]. split; [done|].
      by apply observedPods_elem.
    + destruct Hfind as [Hnone ->]. split; [done|]. split; [done|].
      intros p Hp'. apply (proj1 (findPod_None _ _) Hnone). by apply observedPods_elem.
Qed.

Lemma instance_calls_are_well_targeted_witness :
  let cluster := exCluster 3 (exStatus (Some "id") 1 2 1 true) in
  let members :=
    [exServer "c-0" true false (Some "id") None; exServer "c-1" true false (Some "id") None;
     exServer "c-2" false false None None] in
  let instances := [Pod.mk "c-0" "ns" true] in
  let r := exClient cluster members instances in
  omap podOfCall (outActions (Reconcile r))
  = [Pod.mk "c-0" "ns" true; Pod.mk "c-1" "ns" false]
  ∧ ∃ server : Server.t,
      server ∈ members ∧ util.IsAvailable server = true ∧ Server.Name server = "c-1".
Proof.
  intros cluster members instances r. split; [reflexivity|].
  destruct (instance_calls_are_well_targeted r cluster members instances
              (ActCreateOrDelete (Pod.mk "c-1" "ns" false) false (Ok OperationResultUpdated))
              eq_refl eq_refl eq_refl) as [Hcall _].
  { apply (list_elem_of_lookup_2 _ 1%nat). reflexivity. }
  destruct (Hcall _ _ _ eq_refl) as (_ & server & Hs & Hav & Hname & _).
  exists server. split; [exact Hs|]. split; [exact Hav | by rewrite <- Hname].
Defined.

(** ** Quorum margin and completeness of the per-member loop *)

Lemma serverPodsLoop_margin r serverPods cs cq servers i n :
  3 ≤ cs →
  Z.of_nat (replacements (serverPodsLoop r serverPods cs cq servers i n).1.1)
  ≤ 0 `max` (n - cq).
Proof.
  intros Hcs. unfold replacements.
  revert i n. induction servers as [|s rest IH]; intros i n; simpl; [lia|].
  destruct (planServerPod serverPods cs cq n s) as [|pod existing] eqn:Hplan; [apply IH|].
  destruct (CreateOrDelete r i) as [op|err]; [|destruct existing; simpl; lia].
  match goal with
  | |- context [serverPodsLoop r serverPods cs cq rest (S i) ?m] =>
      pose proof (IH (S i) m) as IH';
      destruct (serverPodsLoop r serverPods cs cq rest (S i) m) as [[acts err] fin]
  end.
  simpl in *. rewrite filter_cons. destruct existing; simpl.
  - apply planServerPod_replace in Hplan as [Hlt|Hlt]; [lia|].
    case_bool_decide; simpl in *; lia.
  - case_bool_decide; simpl in *; lia.
Qed.

(** X15. With at least three members in the cluster, the number of
    existing instances a cycle replaces is at most the margin of ready
    instances above the quorum, availableServers - clusterQuorum, and none is
    replaced when there is no margin. *)
Theorem replacements_bounded_by_margin :
  ∀ (r : Client) (cluster cluster' : Cluster.t) (members : list Server.t)
    (instances : list Pod.t),
    Get r = GetFound cluster →
    ListServers r = Ok members →
    ListPods r = Ok instances →
    outCluster (Reconcile r) = Some cluster' →
    3 ≤ ClusterStatus.ClusterSize (Cluster.Status cluster') →
    Z.of_nat (replacements (outActions (Reconcile r)))
    ≤ 0 `max` (ClusterStatus.AvailableServers (Cluster.Status cluster')
               - ClusterStatus.ClusterQuorum (Cluster.Status cluster')).
Proof.
  intros r cluster cluster' members instances Hget Hs Hp Hout Hsize.
  rewrite (Reconcile_outCluster _ _ _ _ Hget Hs Hp) in Hout. injection Hout as <-.
  destruct (projected_counts_observed cluster members instances) as [Hsize' Hav'].
  destruct (projected_counts cluster members instances) as (_ & Hq & _).
  rewrite (Reconcile_actions _ _ _ _ Hget Hs Hp).
  destruct (statusChanged _ _); [unfold replacements; simpl; lia|].
  rewrite reconcileActions_unfold. cbv zeta.
  destruct (scaleUpLoop_calls r (projected cluster members instances)
              (observedServers members)
              (Z.to_nat (targetServers (projected cluster members instances)
                         - Z.of_nat (length (observedServers members))))
              (Z.of_nat (length (observedServers members)))) as (k & _ & _ & Hacts & _).
  destruct (scaleUpLoop _ _ _ _ _) as [acts [err|]]; simpl in Hacts; subst acts;
    cbn [fst snd].
  { rewrite scaleUpCalls_replacements. lia. }
  destruct (_ =? 0); cbn [fst snd];
    rewrite replacements_app, scaleUpCalls_replacements.
  - rewrite deletePodsLoop_replacements. lia.
  - rewrite Hq, Hsize', Hav'. rewrite Hsize' in Hsize.
    by apply serverPodsLoop_margin.
Qed.

Lemma replacements_bounded_by_margin_witness :
  let cluster := exCluster 7 (exStatus (Some "id") 6 7 4 true) in
  let member := λ name : string, exServer name true false (Some "id") None in
  let members :=
    [member "c-0"; member "c-1"; member "c-2"; member "c-3"; member "c-4"; member "c-5";
     member "c-6"] in
  let instances :=
    [Pod.mk "c-0" "ns" true; Pod.mk "c-1" "ns" true; Pod.mk "c-2" "ns" true;
     Pod.mk "c-3" "ns" true; Pod.mk "c-4" "ns" true; Pod.mk "c-5" "ns" true;
     Pod.mk "c-6" "ns" false] in
  let r := exClient cluster members instances in
  replacements (outActions (Reconcile r)) = 2%nat
  ∧ Z.of_nat (replacements (outActions (Reconcile r))) ≤ 0 `max` (6 - 4).
Proof.
  intros cluster member members instances r. split; [reflexivity|].
  apply (replacements_bounded_by_margin r cluster (projected cluster members instances)
           members instances eq_refl eq_refl eq_refl eq_refl).
  vm_compute. discriminate.
Defined.

Lemma serverPodsLoop_complete r serverPods cs cq servers i n server :
  (serverPodsLoop r serverPods cs cq servers i n).1.2 = None →
  server ∈ servers →
  util.IsAvailable server = true →
  (findPod serverPods (Server.Name server) = None →
   ∃ answer, ActCreateOrDelete (dbServerShell server) false answer
             ∈ (serverPodsLoop r serverPods cs cq servers i n).1.1)
  ∧ (cs < 3 →
     ∀ pod, findPod serverPods (Server.Name server) = Some pod →
            ∃ answer, ActCreateOrDelete pod true answer
                      ∈ (serverPodsLoop r serverPods cs cq servers i n).1.1).
Proof.
  revert i n. induction servers as [|s rest IH]; intros i n Herr Hin Hav;
    [by apply elem_of_nil in Hin|].
  simpl in Herr |- *.
  destruct (planServerPod serverPods cs cq n s) as [|pod existing] eqn:Hplan.
  - apply elem_of_cons in Hin as [->|Hin]; [|by apply IH].
    unfold planServerPod in Hplan. rewrite Hav in Hplan. simpl in Hplan.
    destruct (findPod serverPods (Server.Name s)) as [p|]; [|done].
    split; [done|]. intros Hsmall.
    destruct (Z.geb_spec cs 3); [lia | done].
  - destruct (CreateOrDelete r i) as [op|err]; [|done].
    match goal with
    | |- context [serverPodsLoop r serverPods cs cq rest (S i) ?m] =>
        specialize (IH (S i) m);
        destruct (serverPodsLoop r serverPods cs cq rest (S i) m) as [[acts err] fin]
    end.
    simpl in *.
    apply elem_of_cons in Hin as [->|Hin].
    + destruct (planServerPod_apply _ _ _ _ _ _ _ Hplan) as [_ Hfind].
      destruct existing.
      * rewrite Hfind. split; [done|]. intros _ p [= <-]. exists (Ok op). left.
      * destruct Hfind as [Hnone ->]. rewrite Hnone. split; [|done].
        intros _. exists (Ok op). left.
    + destruct (IH Herr Hin Hav) as [Hcreate Hsmall]. split.
      * intros Hnone. destruct (Hcreate Hnone) as [ans Hans]. exists ans. by right.
      * intros Hcs p Hp. destruct (Hsmall Hcs p Hp) as [ans Hans]. exists ans. by right.
Qed.

(** X16. In a cycle that reaches the second half with replicas not zero
    and returns no error, every Available member without an observed instance
    gets a CreateOrDelete call on a new instance named after it, whatever the
    quorum; and when the cluster has fewer than three members every Available
    member gets a CreateOrDelete call. *)
Theorem available_members_get_their_instance :
  ∀ (r : Client) (cluster : Cluster.t) (members : list Server.t) (instances : list Pod.t)
    (server : Server.t),
    Get r = GetFound cluster →
    ListServers r = Ok members →
    ListPods r = Ok instances →
    Cluster.Status (projected cluster members instances) = Cluster.Status cluster →
    ClusterSpec.Replicas (Cluster.Spec cluster) ≠ 0 →
    outErr (Reconcile r) = None →
    server ∈ members →
    util.IsAvailable server = true →
    ((∀ p : Pod.t, p ∈ instances → Pod.Name p ≠ Server.Name server) →
     ∃ answer : result OperationResult,
       ActCreateOrDelete (dbServerShell server) false answer ∈ outActions (Reconcile r))
    ∧ (ClusterStatus.ClusterSize (Cluster.Status cluster) < 3 →
       ∃ (pod : Pod.t) (existing : bool) (answer : result OperationResult),
         Pod.Name pod = Server.Name server
         ∧ ActCreateOrDelete pod existing answer ∈ outActions (Reconcile r)).
Proof.
  intros r cluster members instances server Hget Hs Hp Hstable Hrep Herr Hin Hav.
  destruct (projected_counts_observed cluster members instances) as [Hsize _].
  rewrite Hstable in Hsize.
  destruct (Reconcile_stable r cluster members instances Hget Hs Hp Hstable)
    as [Hacts Herr'].
  rewrite Herr' in Herr. rewrite Hacts. clear Hacts Herr'.
  rewrite reconcileActions_unfold in Herr |- *. cbv zeta in Herr |- *.
  destruct (scaleUpLoop _ _ _ _ _) as [scaleUp [err|]]; cbn [fst snd] in Herr |- *;
    [done|].
  rewrite (proj2 (Z.eqb_neq _ _) Hrep) in Herr |- *. cbn [fst snd] in Herr |- *.
  apply (proj2 (observedServers_elem members server)) in Hin.
  destruct (serverPodsLoop_complete r (observedPods instances)
              (countAvailable (observedServers members) 0)
              (quorumOf (countAvailable (observedServers members) 0))
              (observedServers members) 0 (countReady (observedPods instances) 0)
              server Herr Hin Hav) as [Hcreate Hsmall].
  assert (Hnew : findPod (observedPods instances) (Server.Name server) = None →
    ∃ answer, ActCreateOrDelete (dbServerShell server) false answer
              ∈ scaleUp ++ (serverPodsLoop r (observedPods instances)
                              (countAvailable (observedServers members) 0)
                              (quorumOf (countAvailable (observedServers members) 0))
                              (observedServers members) 0
                              (countReady (observedPods instances) 0)).1.1).
  { intros Hnone. destruct (Hcreate Hnone) as [ans Hans].
    exists ans. apply elem_of_app. by right. }
  split.
  - intros Hnone. apply Hnew. apply findPod_None.
    intros p Hp'. apply Hnone. by apply observedPods_elem.
  - intros Hcs.
    destruct (findPod (observedPods instances) (Server.Name server)) as [pod|] eqn:Hfind.
    + destruct (Hsmall ltac:(lia) pod eq_refl) as [ans Hans].
      exists pod, true, ans. split; [by apply (findPod_elem _ _ _ Hfind)|].
      apply elem_of_app. by right.
    + destruct (Hnew eq_refl) as [ans Hans].
      exists (dbServerShell server), false, ans. split; [done | exact Hans].
Qed.

Lemma available_members_get_their_instance_witness :
  let cluster := exCluster 3 (exStatus (Some "id") 1 2 1 true) in
  let members :=
    [exServer "c-0" true false (Some "id") None; exServer "c-1" true false (Some "id") None] in
  let instances := [Pod.mk "c-0" "ns" true] in
  let r := exClient (exCluster 3 (exStatus (Some "id") 1 2 1 true)) members instances in
  (∃ answer : result OperationResult,
      ActCreateOrDelete (Pod.mk "c-1" "ns" false) false answer ∈ outActions (Reconcile r))
  ∧ ∃ (pod : Pod.t) (existing : bool) (answer : result OperationResult),
      Pod.Name pod = "c-0" ∧ ActCreateOrDelete pod existing answer ∈ outActions (Reconcile r).
Proof.
  intros cluster members instances r.
  destruct (available_members_get_their_instance r cluster members instances
              (exServer "c-1" true false (Some "id") None)
              eq_refl eq_refl eq_refl eq_refl) as [Hnew _];
    [discriminate | reflexivity | right; left | reflexivity |].
  destruct (available_members_get_their_instance r cluster members instances
              (exServer "c-0" true false (Some "id") None)
              eq_refl eq_refl eq_refl eq_refl) as [_ Hsmall];
    [discriminate | reflexivity | left | reflexivity |].
  split.
  - apply Hnew. intros p Hp. apply elem_of_cons in Hp as [->|Hp]; [discriminate|].
    by apply elem_of_nil in Hp.
  - apply Hsmall. vm_compute. reflexivity.
Defined.

(** ** The order of the calls on instances *)

Lemma StronglySorted_sublist {A : Type} (R : relation A) (l1 l2 : list A) :
  l1 `sublist_of` l2 → StronglySorted R l2 → StronglySorted R l1.
Proof.
  induction 1 as [|x l1 l2 Hsub IH|x l1 l2 Hsub IH]; intros Hsorted; [done|..].
  - apply StronglySorted_inv in Hsorted as [Hrest Hall]. constructor; [by apply IH|].
    apply Forall_forall. intros y Hy.
    apply (proj1 (Forall_forall _ _) Hall).
    by apply (elem_of_submseteq l1 l2); [|apply sublist_submseteq].
  - apply StronglySorted_inv in Hsorted as [Hrest _]. by apply IH.
Qed.

Lemma deletePodsLoop_no_pod r serverPods i :
  omap podOfCall (deletePodsLoop r serverPods i).1 = [].
Proof.
  revert i. induction serverPods as [|p rest IH]; intros i; simpl; [done|].
  destruct (Delete r i); [done|].
  specialize (IH (S i)). by destruct (deletePodsLoop r rest (S i)).
Qed.

Lemma serverPodsLoop_order r serverPods cs cq servers i n :
  Pod.Name <$> omap podOfCall (serverPodsLoop r serverPods cs cq servers i n).1.1
  `sublist_of` Server.Name <$> servers.
Proof.
  revert i n. induction servers as [|s rest IH]; intros i n; simpl; [done|].
  destruct (planServerPod serverPods cs cq n s) as [|pod existing] eqn:Hplan;
    [apply sublist_cons, IH|].
  assert (Hname : Pod.Name pod = Server.Name s).
  { destruct (planServerPod_apply _ _ _ _ _ _ _ Hplan) as [_ Hfind].
    destruct existing; [by apply (findPod_elem _ _ _ Hfind)|].
    by destruct Hfind as [_ ->]. }
  destruct (CreateOrDelete r i) as [op|err].
  - match goal with
    | |- context [serverPodsLoop r serverPods cs cq rest (S i) ?m] =>
        specialize (IH (S i) m);
        destruct (serverPodsLoop r serverPods cs cq rest (S i) m) as [[acts err] fin]
    end.
    simpl in *. rewrite Hname. by apply sublist_skip.
  - simpl. rewrite Hname. apply sublist_skip, sublist_nil_l.
Qed.

(** X17. The CreateOrDelete calls of a cycle are made in ascending order of
    instance name, which is the order of the sorted members; when the listed
    members have pairwise different names, no two CreateOrDelete calls of a
    cycle are on instances of the same name. *)
Theorem instance_calls_in_name_order :
  ∀ (r : Client) (cluster : Cluster.t) (members : list Server.t) (instances : list Pod.t),
    Get r = GetFound cluster →
    ListServers r = Ok members →
    ListPods r = Ok instances →
    StronglySorted (λ a b : string, String.leb a b = true)
                   (Pod.Name <$> omap podOfCall (outActions (Reconcile r)))
    ∧ (NoDup (Server.Name <$> members) →
       NoDup (Pod.Name <$> omap podOfCall (outActions (Reconcile r)))).
Proof.
  intros r cluster members instances Hget Hs Hp.
  assert (Hsub : Pod.Name <$> omap podOfCall (outActions (Reconcile r))
                 `sublist_of` Server.Name <$> observedServers members).
  { rewrite (Reconcile_actions _ _ _ _ Hget Hs Hp).
    destruct (statusChanged _ _); [apply sublist_nil_l|].
    rewrite reconcileActions_unfold. cbv zeta.
    destruct (scaleUpLoop_calls r (projected cluster members instances)
                (observedServers members)
                (Z.to_nat (targetServers (projected cluster members instances)
                           - Z.of_nat (length (observedServers members))))
                (Z.of_nat (length (observedServers members)))) as (k & _ & _ & Hacts & _).
    destruct (scaleUpLoop _ _ _ _ _) as [acts [err|]]; simpl in Hacts; subst acts;
      cbn [fst snd].
    { rewrite (proj1 (scaleUpCalls_no_pod _ _)). apply sublist_nil_l. }
    destruct (_ =? 0); cbn [fst snd];
      rewrite omap_app, (proj1 (scaleUpCalls_no_pod _ _)), app_nil_l.
    - rewrite deletePodsLoop_no_pod. apply sublist_nil_l.
    - apply serverPodsLoop_order. }
  split.
  - apply (StronglySorted_sublist _ _ _ Hsub).
    apply (StronglySorted_fmap Server.Name serverNameLe); [done|].
    apply (StronglySorted_merge_sort serverNameLe).
  - intros Hnd. apply (λ H, sublist_NoDup _ _ H Hsub).
    by rewrite observedServers_names.
Qed.

Lemma instance_calls_in_name_order_witness :
  let cluster := exCluster 3 (exStatus (Some "id") 1 2 1 true) in
  let members :=
    [exServer "c-1" true false (Some "id") None; exServer "c-2" false false None None;
     exServer "c-0" true false (Some "id") None] in
  let instances := [Pod.mk "c-0" "ns" true] in
  let r := exClient cluster members instances in
  Pod.Name <$> omap podOfCall (outActions (Reconcile r)) = ["c-0"; "c-1"]
  ∧ NoDup (Pod.Name <$> omap podOfCall (outActions (Reconcile r))).
Proof.
  intros cluster members instances r. split; [reflexivity|].
  apply (instance_calls_in_name_order r cluster members instances eq_refl eq_refl eq_refl).
  apply (bool_decide_unpack (NoDup (Server.Name <$> members))). vm_compute. exact I.
Defined.
